(** * Server.js: session registry and sandboxed script execution

    A shallow embedding of the Express handlers of [Server.js]
    ([/api/pairing], [/api/execute], [/api/disconnect]), of the listeners
    the pairing handler registers on a transport handle, and of the
    capability object handed to the sandbox.

    Conventions of the embedding:
    - a JavaScript string is the list of its UTF-16 code units;
    - the body of a response, a payload sent on the push channel and an
      entry of [results] are JSON-like values ([JSVal]), so that the
      presence or the absence of a field can be stated;
    - the [connections] Map is a [gmap] from keys to session records;
    - everything the handlers obtain from outside (the clock, the transport
      library, the behaviour of the submitted script) is an explicit
      argument;
    - a handler runs to completion on the world it is given: listeners and
      timers that fire while a handler is suspended on an [await] are
      separate actions of the transition system [step]; a handler that
      stays suspended for ever gives no response. *)

From Stdlib Require Import ZArith NArith List String Ascii Lia Sorted.
From stdpp Require Import gmap list.
From Equations Require Import Equations.

Local Open Scope Z_scope.

(** ** Strings *)

Abbreviation JSString := (list N).

(** A literal of the source, as code units. *)
Definition js (s : string) : JSString :=
  map N_of_ascii (list_ascii_of_string s).
Arguments js s%_string.

(** [[0-9]] *)
Definition is_digit (c : N) : bool := ((48 <=? c) && (c <=? 57))%N.

(** [\w]: [[A-Za-z0-9_]] *)
Definition is_word (c : N) : bool :=
  (((65 <=? c) && (c <=? 90)) || ((97 <=? c) && (c <=? 122))
   || is_digit c || (c =? 95))%N.

(** [\s]: the white space and line terminator code units of ECMAScript. *)
Definition is_space (c : N) : bool :=
  (((9 <=? c) && (c <=? 13)) || (c =? 32) || (c =? 160) || (c =? 5760)
   || ((8192 <=? c) && (c <=? 8202)) || (c =? 8232) || (c =? 8233)
   || (c =? 8239) || (c =? 8287) || (c =? 12288) || (c =? 65279))%N.

(** The code units [.] does not match. *)
Definition is_line_terminator (c : N) : bool :=
  ((c =? 10) || (c =? 13) || (c =? 8232) || (c =? 8233))%N.

(** [s.startsWith(p)] *)
Fixpoint starts_with (p s : JSString) : bool :=
  match p, s with
  | [], _ => true
  | _ :: _, [] => false
  | a :: p', b :: s' => (a =? b)%N && starts_with p' s'
  end.

(** [s.includes(p)] *)
Fixpoint includes (s p : JSString) : bool :=
  starts_with p s ||
  match s with
  | [] => false
  | _ :: s' => includes s' p
  end.

(** The longest prefix of [s] whose code units satisfy [f]. *)
Fixpoint take_while (f : N -> bool) (s : JSString) : JSString :=
  match s with
  | [] => []
  | c :: s' => if f c then c :: take_while f s' else []
  end.

(** [s.replace(/[^0-9]/g, '')] *)
Definition strip_non_digits (s : JSString) : JSString := List.filter is_digit s.

(** [/async function\s+(\w+)/] tried at the start of [s]: the capture group.
    [\s] and [\w] are disjoint, so the greedy runs are the only candidates. *)
Definition fn_match_here (s : JSString) : option JSString :=
  if starts_with (js "async function") s then
    let rest := drop (length (js "async function")) s in
    let spaces := take_while is_space rest in
    let name := take_while is_word (drop (length spaces) rest) in
    match spaces, name with
    | _ :: _, _ :: _ => Some name
    | _, _ => None
    end
  else None.

(** [code.match(/async function\s+(\w+)/)]: group 1 of the leftmost match,
    [None] for [null]. *)
Fixpoint fn_match (code : JSString) : option JSString :=
  match fn_match_here code with
  | Some name => Some name
  | None =>
      match code with
      | [] => None
      | _ :: code' => fn_match code'
      end
  end.

(** [s.match(/.{1,4}/g)]: greedy groups of at most four code units, none of
    them a line terminator; [cur] is the group being filled. *)
Fixpoint groups_of_4 (s cur : JSString) : list JSString :=
  match s with
  | [] => match cur with [] => [] | _ => [cur] end
  | c :: s' =>
      if is_line_terminator c then
        match cur with [] => groups_of_4 s' [] | _ => cur :: groups_of_4 s' [] end
      else if (length cur =? 4)%nat then cur :: groups_of_4 s' [c]
      else groups_of_4 s' (cur ++ [c])
  end.

(** [parts.join(sep)] *)
Fixpoint join (sep : JSString) (parts : list JSString) : JSString :=
  match parts with
  | [] => []
  | [p] => p
  | p :: rest => p ++ sep ++ join sep rest
  end.

(** ** Values, errors, responses and push-channel events *)

(** JSON-like values: response bodies, event payloads, entries of
    [results], as the handlers build them. A field that the source does
    not write is absent from the field list; a field that the source
    writes with the value [undefined] is in the list with [v_undefined]
    (the JSON text sent on the wire leaves such a field out). *)
#[local] Unset Elimination Schemes.
Inductive JSVal :=
| v_undefined
| v_num (n : Z)
| v_bool (b : bool)
| v_str (s : JSString)
| v_arr (items : list JSVal)
| v_obj (fields : list (JSString * JSVal)).
#[local] Set Elimination Schemes.

(** [o.name] on an object: the first field of that name. *)
Fixpoint assoc (name : JSString) (fields : list (JSString * JSVal)) : option JSVal :=
  match fields with
  | [] => None
  | (k, v) :: rest => if decide (k = name) then Some v else assoc name rest
  end.

Definition field (name : JSString) (o : JSVal) : option JSVal :=
  match o with
  | v_obj fields => assoc name fields
  | _ => None
  end.

(** An error object: its [message], and the [output.statusCode] that the
    errors of the transport library carry. [new Error(m)] has no status code. *)
Record JSError := { message : JSString; statusCode : option Z }.

Definition new_Error (m : JSString) : JSError :=
  {| message := m; statusCode := None |}.

Definition TypeError_reading (base prop : string) : JSError :=
  new_Error (js "Cannot read properties of " ++ js base
             ++ js " (reading '" ++ js prop ++ js "')").

(** The completion of a call: a value, or a thrown error. *)
Inductive Completion (A : Type) :=
| returns (a : A)
| throws (e : JSError).
Arguments returns {A} a.
Arguments throws {A} e.

(** [res.status(c).json(b)]; [res.json(b)] answers 200. *)
Record Response := { http_status : Z; body : JSVal }.

Definition failure (c : Z) (error : JSString) : Response :=
  {| http_status := c;
     body := v_obj [(js "success", v_bool false); (js "error", v_str error)] |}.

(** [io.to(room).emit(event, payload)] *)
Record Emit := { room : option JSString; event : JSString; payload : JSVal }.

(** ** The session registry *)

Inductive Status := connecting | connected | disconnected.

(** A value of the [connections] Map. [sock] is the index of the transport
    handle in [sockets]; [saveCreds] is named by the auth folder it writes.
    The record a listener rebuilds from [{...undefined, status}] has only
    its [status]. *)
Record Connection := {
  sock : option nat;
  saveCreds : option JSString;
  status : Status;
  socketId : option JSString;
  createdAt : option Z
}.

(** A transport handle made by [makeWASocket], with what its listeners
    close over. [ended]: [sock.end()] was called on it; [closed]: it
    reported [connection: 'close']. *)
Record Socket := {
  for_phone : JSString;
  for_room : option JSString;
  ended : bool;
  closed : bool
}.

Definition live (s : Socket) : bool := negb (ended s) && negb (closed s).

(** The state of the process: the [connections] Map, the transport handles
    made so far, the pending clean-up timers (each with the key its
    callback closes over), the events emitted so far, and the number of
    [VM]s constructed so far. *)
Record World := {
  connections : gmap JSString Connection;
  sockets : list Socket;
  timers : list JSString;
  emitted : list Emit;
  vms : nat
}.

Definition init : World :=
  {| connections := ∅; sockets := []; timers := []; emitted := []; vms := 0 |}.

Definition set_connections (m : gmap JSString Connection) (w : World) : World :=
  {| connections := m; sockets := sockets w; timers := timers w;
     emitted := emitted w; vms := vms w |}.

Definition set_sockets (l : list Socket) (w : World) : World :=
  {| connections := connections w; sockets := l; timers := timers w;
     emitted := emitted w; vms := vms w |}.

Definition set_timers (l : list JSString) (w : World) : World :=
  {| connections := connections w; sockets := sockets w; timers := l;
     emitted := emitted w; vms := vms w |}.

Definition emit (r : option JSString) (ev : JSString) (p : JSVal) (w : World) : World :=
  {| connections := connections w; sockets := sockets w; timers := timers w;
     emitted := emitted w ++ [{| room := r; event := ev; payload := p |}];
     vms := vms w |}.

Definition new_VM (w : World) : World :=
  {| connections := connections w; sockets := sockets w; timers := timers w;
     emitted := emitted w; vms := S (vms w) |}.

(** *** [POST /api/pairing] *)

(** What the pairing handler reads from outside: [Date.now()], and whether
    [useMultiFileAuthState] or [makeWASocket] throws. *)
Record PairEnv := {
  now : Z;
  auth_fault : option JSError;
  socket_fault : option JSError
}.

Definition paired (msg cleanPhone : JSString) : Response :=
  {| http_status := 200;
     body := v_obj [(js "success", v_bool true); (js "message", v_str msg);
                    (js "phone", v_str cleanPhone)] |}.

(** [connections.has(cleanPhone) && connections.get(cleanPhone).status === 'connected'] *)
Definition already_connected (cleanPhone : JSString) (w : World) : bool :=
  match connections w !! cleanPhone with
  | Some existing => match status existing with connected => true | _ => false end
  | None => false
  end.

Definition api_pairing (env : PairEnv) (phone : JSString)
    (socket_id : option JSString) (w : World) : Response * World :=
  let cleanPhone := strip_non_digits phone in
  if ((length cleanPhone <? 10) || (15 <? length cleanPhone))%nat then
    (failure 400 (js "Nomor tidak valid"), w)
  else if already_connected cleanPhone w then
    (paired (js "Already connected") cleanPhone, w)
  else
    match auth_fault env with
    | Some error => (failure 500 (message error), w)
    | None =>
        match socket_fault env with
        | Some error => (failure 500 (message error), w)
        | None =>
            let h := length (sockets w) in
            let w1 := set_sockets (sockets w ++
                        [{| for_phone := cleanPhone; for_room := socket_id;
                            ended := false; closed := false |}]) w in
            let w2 := set_connections (<[cleanPhone :=
                        {| sock := Some h; saveCreds := Some cleanPhone;
                           status := connecting; socketId := socket_id;
                           createdAt := Some (now env) |}]> (connections w1)) w1 in
            (paired (js "Pairing initiated") cleanPhone, w2)
        end
    end.

(** *** The [connection.update] listener *)

(** [{...connections.get(cleanPhone), status: s}] *)
Definition with_status (o : option Connection) (s : Status) : Connection :=
  match o with
  | Some c => {| sock := sock c; saveCreds := saveCreds c; status := s;
                 socketId := socketId c; createdAt := createdAt c |}
  | None => {| sock := None; saveCreds := None; status := s;
               socketId := None; createdAt := None |}
  end.

(** The updates the listener tells apart. [upd_open code]: [connection]
    is ['open'], and [sock.requestPairingCode] resolves to [code] or throws.
    [upd_close reason]: [connection] is ['close'], with
    [lastDisconnect?.error?.message]. *)
Inductive ConnUpdate :=
| upd_open (pairingCode : Completion JSString)
| upd_close (reason : option JSString)
| upd_other.

Definition opt_str (o : option JSString) : JSVal :=
  match o with Some s => v_str s | None => v_undefined end.

Definition mark_closed (h : nat) (w : World) : World :=
  match sockets w !! h with
  | Some s => set_sockets (<[h := {| for_phone := for_phone s; for_room := for_room s;
                                      ended := ended s; closed := true |}]> (sockets w)) w
  | None => w
  end.

Definition on_connection_update (h : nat) (update : ConnUpdate) (w : World) : World :=
  match sockets w !! h with
  | None => w
  | Some s =>
      let cleanPhone := for_phone s in
      let socket_id := for_room s in
      match update with
      | upd_open pairingCode =>
          let w1 := set_connections (<[cleanPhone :=
                      with_status (connections w !! cleanPhone) connected]>
                      (connections w)) w in
          let w2 := emit socket_id (js "status")
                      (v_obj [(js "status", v_str (js "connected"));
                              (js "deviceInfo",
                               v_obj [(js "phone", v_str cleanPhone);
                                      (js "device", v_str (js "WhatsApp Web"));
                                      (js "platform", v_str (js "Baileys"))])]) w1 in
          match pairingCode with
          | returns code =>
              match groups_of_4 code [] with
              | [] => w2
              | g :: gs => emit socket_id (js "pairing_code")
                             (v_obj [(js "code", v_str (join (js "-") (g :: gs)))]) w2
              end
          | throws _ => w2
          end
      | upd_close reason =>
          let w0 := mark_closed h w in
          let w1 := set_connections (<[cleanPhone :=
                      with_status (connections w0 !! cleanPhone) disconnected]>
                      (connections w0)) w0 in
          let w2 := emit socket_id (js "status")
                      (v_obj [(js "status", v_str (js "disconnected"));
                              (js "reason", opt_str reason)]) w1 in
          set_timers (timers w2 ++ [cleanPhone]) w2
      | upd_other => w
      end
  end.

(** The callback of the clean-up timer, for the [n]-th pending timer. *)
Definition on_cleanup_timer (n : nat) (w : World) : World :=
  match timers w !! n with
  | None => w
  | Some cleanPhone =>
      let w1 := set_timers (delete n (timers w)) w in
      match connections w1 !! cleanPhone with
      | Some c =>
          match status c with
          | disconnected => set_connections (delete cleanPhone (connections w1)) w1
          | _ => w1
          end
      | None => w1
      end
  end.

(** *** [POST /api/disconnect] *)

Definition mark_ended (h : nat) (w : World) : World :=
  match sockets w !! h with
  | Some s => set_sockets (<[h := {| for_phone := for_phone s; for_room := for_room s;
                                      ended := true; closed := closed s |}]> (sockets w)) w
  | None => w
  end.

(** [end_fault]: whether [connection.sock.end()] throws, and what. When it
    does, the handler answers 500 and the record stays; what the transport
    did to the handle before it threw is not known, and the handle is left
    as it was. *)
Definition api_disconnect (end_fault : option JSError) (phone : JSString)
    (w : World) : Response * World :=
  let ok := {| http_status := 200; body := v_obj [(js "success", v_bool true)] |} in
  match connections w !! phone with
  | Some connection =>
      match sock connection with
      | Some h =>
          match end_fault with
          | Some error => (failure 500 (message error), w)
          | None =>
              let w1 := mark_ended h w in
              (ok, set_connections (delete phone (connections w1)) w1)
          end
      | None => (ok, w)
      end
  | None => (ok, w)
  end.

(** ** The capability object of the sandbox *)

(** The second argument of the transport's [sock.sendMessage(to, content)],
    as the capability methods build it. *)
Inductive Content :=
| c_text (text : JSString)
| c_raw (msg : JSVal)
| c_image (url caption : JSString)
| c_video (url caption : JSString)
| c_audio (url : JSString)
| c_contacts (displayName vcard : JSString)
| c_location (degreesLatitude degreesLongitude : Z) (caption : JSString)
| c_poll (name : JSString) (values : list JSString)
| c_react (text id : JSString)
| c_delete (id : JSString).

(** [undefined] or [null]. *)
Inductive Nullish := is_undefined | is_null.

Definition nullish_name (n : Nullish) : string :=
  match n with
  | is_undefined => "undefined"
  | is_null => "null"
  end.

(** What [await sock.sendMessage(..)] resolves to, as far as [result.key.id]
    reads it: [undefined] or [null], a value whose [key] is [undefined] or
    [null], or a value whose [key] has the given [id]. *)
Inductive SendResult :=
| res_nullish (n : Nullish)
| res_key_nullish (n : Nullish)
| res_key (id : option JSString).

(** What [sock.fetchStatus(jid)] resolves to: a status object, or a falsy
    value. *)
Record StatusInfo := { status_text : JSString; setAt : option Z }.

(** The transport handle, as the capability methods use it. *)
Record Transport := {
  transport_sendMessage : JSString -> Content -> Completion SendResult;
  transport_fetchStatus : JSString -> Completion (option StatusInfo)
}.

(** A call of a method of the sandbox's [sock], with its arguments;
    [caption] and [name] are optional. *)
Inductive CapCall :=
| sendText (to text : JSString)
| sendMessage (to : JSString) (msg : JSVal)
| sendImage (to url : JSString) (caption : option JSString)
| sendVideo (to url : JSString) (caption : option JSString)
| sendAudio (to url : JSString)
| sendContact (to name number : JSString)
| sendLocation (to : JSString) (lat lng : Z) (name : option JSString)
| sendPoll (to question : JSString) (options : list JSString)
| react (to messageId emoji : JSString)
| deleteMessage (to messageId : JSString)
| getUserStatus (jid : JSString).

(** What a method returns: [{ success: true, id }], [{ success: true }], or
    a status object. *)
Inductive CapValue :=
| cap_sent (id : option JSString)
| cap_done
| cap_status (info : StatusInfo).

(** [x || ''] *)
Definition or_empty (x : option JSString) : JSString :=
  match x with
  | Some (c :: s) => c :: s
  | _ => []
  end.

(** [sock.sendMessage(to, content)] on the handle of the session record,
    which is [undefined] in a record rebuilt by a listener. *)
Definition call_sendMessage (handle : option Transport) (to : JSString)
    (content : Content) : Completion SendResult :=
  match handle with
  | Some t => transport_sendMessage t to content
  | None => throws (TypeError_reading "undefined" "sendMessage")
  end.

(** [result.key.id] *)
Definition key_id (result : SendResult) : Completion (option JSString) :=
  match result with
  | res_nullish n => throws (TypeError_reading (nullish_name n) "key")
  | res_key_nullish n => throws (TypeError_reading (nullish_name n) "id")
  | res_key id => returns id
  end.

(** The body shared by the eight [send*] methods:
    [try { const result = await sock.sendMessage(to, content);
           return { success: true, id: result.key.id }; }
     catch (err) { throw new Error(`<prefix>${err.message}`); }] *)
Definition send_with_id (handle : option Transport) (prefix to : JSString)
    (content : Content) : Completion CapValue :=
  match call_sendMessage handle to content with
  | returns result =>
      match key_id result with
      | returns id => returns (cap_sent id)
      | throws err => throws (new_Error (prefix ++ message err))
      end
  | throws err => throws (new_Error (prefix ++ message err))
  end.

(** The body shared by [react] and [deleteMessage], which return
    [{ success: true }] without reading the result. *)
Definition send_plain (handle : option Transport) (prefix to : JSString)
    (content : Content) : Completion CapValue :=
  match call_sendMessage handle to content with
  | returns _ => returns cap_done
  | throws err => throws (new_Error (prefix ++ message err))
  end.

Definition vcard_of (name number : JSString) : JSString :=
  js "BEGIN:VCARD" ++ [10%N] ++ js "VERSION:3.0" ++ [10%N]
  ++ js "FN:" ++ name ++ [10%N]
  ++ js "TEL;type=CELL;waid=" ++ number ++ js ":" ++ number ++ [10%N]
  ++ js "END:VCARD".

Definition unknown_status : StatusInfo :=
  {| status_text := js "unknown"; setAt := None |}.

(** The prefix of the error a method throws. *)
Definition error_prefix (c : CapCall) : JSString :=
  match c with
  | sendText _ _ | sendMessage _ _ => js "Gagal kirim: "
  | sendImage _ _ _ => js "Gagal kirim gambar: "
  | sendVideo _ _ _ => js "Gagal kirim video: "
  | sendAudio _ _ => js "Gagal kirim audio: "
  | sendContact _ _ _ => js "Gagal kirim kontak: "
  | sendLocation _ _ _ _ => js "Gagal kirim lokasi: "
  | sendPoll _ _ _ => js "Gagal kirim poll: "
  | react _ _ _ => js "Gagal react: "
  | deleteMessage _ _ => js "Gagal hapus: "
  | getUserStatus _ => []
  end.

(** The content a method passes to the transport; an absent or empty
    caption or name is passed as the empty string. *)
Definition content_of (c : CapCall) : option (JSString * Content) :=
  match c with
  | sendText to text => Some (to, c_text text)
  | sendMessage to msg => Some (to, c_raw msg)
  | sendImage to url caption => Some (to, c_image url (default [] caption))
  | sendVideo to url caption => Some (to, c_video url (default [] caption))
  | sendAudio to url => Some (to, c_audio url)
  | sendContact to name number => Some (to, c_contacts name (vcard_of name number))
  | sendLocation to lat lng name => Some (to, c_location lat lng (default [] name))
  | sendPoll to question options => Some (to, c_poll question options)
  | react to messageId emoji => Some (to, c_react emoji messageId)
  | deleteMessage to messageId => Some (to, c_delete messageId)
  | getUserStatus _ => None
  end.

(** The methods of the [sock] object of the sandbox. *)
Definition capability (handle : option Transport) (c : CapCall) : Completion CapValue :=
  match c with
  | sendText to text =>
      send_with_id handle (js "Gagal kirim: ") to (c_text text)
  | sendMessage to msg =>
      send_with_id handle (js "Gagal kirim: ") to (c_raw msg)
  | sendImage to url caption =>
      send_with_id handle (js "Gagal kirim gambar: ") to (c_image url (or_empty caption))
  | sendVideo to url caption =>
      send_with_id handle (js "Gagal kirim video: ") to (c_video url (or_empty caption))
  | sendAudio to url =>
      send_with_id handle (js "Gagal kirim audio: ") to (c_audio url)
  | sendContact to name number =>
      send_with_id handle (js "Gagal kirim kontak: ") to
        (c_contacts name (vcard_of name number))
  | sendLocation to lat lng name =>
      send_with_id handle (js "Gagal kirim lokasi: ") to
        (c_location lat lng (or_empty name))
  | sendPoll to question options =>
      send_with_id handle (js "Gagal kirim poll: ") to (c_poll question options)
  | react to messageId emoji =>
      send_plain handle (js "Gagal react: ") to (c_react emoji messageId)
  | deleteMessage to messageId =>
      send_plain handle (js "Gagal hapus: ") to (c_delete messageId)
  | getUserStatus jid =>
      match handle with
      | Some t =>
          match transport_fetchStatus t jid with
          | returns (Some info) => returns (cap_status info)
          | returns None => returns (cap_status unknown_status)
          | throws _ => returns (cap_status unknown_status)
          end
      | None => returns (cap_status unknown_status)
      end
  end.

(** The methods whose name starts with [send]. *)
Definition send_family (c : CapCall) : bool :=
  match c with
  | sendText _ _ | sendMessage _ _ | sendImage _ _ _ | sendVideo _ _ _
  | sendAudio _ _ | sendContact _ _ _ | sendLocation _ _ _ _ | sendPoll _ _ _ => true
  | react _ _ _ | deleteMessage _ _ | getUserStatus _ => false
  end.

(** ** The sandbox *)

(** What a key of the [sandbox] object is bound to: the capability object
    with its methods, the target, the [console] object with its methods, or
    a global of the host passed by reference. *)
Inductive Binding :=
| bind_capability (handle : option nat) (methods : list JSString)
| bind_target (jid : JSString)
| bind_console (room : option JSString) (methods : list JSString)
| bind_host (global : JSString).

Definition sock_methods : list JSString :=
  [js "sendText"; js "sendMessage"; js "sendImage"; js "sendVideo";
   js "sendAudio"; js "sendContact"; js "sendLocation"; js "sendPoll";
   js "react"; js "deleteMessage"; js "getUserStatus"].

(** The [sandbox] option of [new VM({ timeout: 30000, sandbox: {...} })].
    The capability methods close over the transport handle of the session,
    [console.log] over the room of the caller. *)
Definition sandbox (handle : option nat) (jid : JSString)
    (socket_id : option JSString) : list (JSString * Binding) :=
  [(js "sock", bind_capability handle sock_methods);
   (js "target", bind_target jid);
   (js "console", bind_console socket_id [js "log"]);
   (js "Buffer", bind_host (js "Buffer"));
   (js "setTimeout", bind_host (js "setTimeout"));
   (js "Date", bind_host (js "Date"));
   (js "Math", bind_host (js "Math"));
   (js "JSON", bind_host (js "JSON"))].

Definition vm_timeout : Z := 30000.

(** The binding the sandbox object gives to a name. *)
Fixpoint sandbox_lookup (name : JSString) (sb : list (JSString * Binding)) : option Binding :=
  match sb with
  | [] => None
  | (k, b) :: rest => if decide (k = name) then Some b else sandbox_lookup name rest
  end.

(** The allowlist in the words of the specification: the capability object,
    the target identity, the logging primitive, and structured-data
    encode/decode, current time, deterministic math and byte buffers. *)
Definition spec_allowlist : list JSString :=
  [js "sock"; js "target"; js "console"; js "JSON"; js "Date"; js "Math"; js "Buffer"].

(** The sandbox exposes only what the specification lists. *)
Definition exposes_only_spec_allowlist (sb : list (JSString * Binding)) : Prop :=
  forall name, is_Some (sandbox_lookup name sb) -> In name spec_allowlist.

(** ** [POST /api/execute] *)

(** What the entry point of a script resolves to, as far as
    [JSON.stringify] tells values apart: a value it renders as [undefined]
    ([undefined] itself, or a function), a value it renders as the text
    [json], or a value it throws on (a cycle, a BigInt). *)
Inductive ScriptResult :=
| ret_undefined
| ret_function
| ret_json (text : JSString)
| ret_unserializable (err : JSError).

(** [JSON.stringify(result)] *)
Definition JSON_stringify (result : ScriptResult) : Completion (option JSString) :=
  match result with
  | ret_undefined | ret_function => returns None
  | ret_json text => returns (Some text)
  | ret_unserializable err => throws err
  end.

(** [JSON.stringify(result).substring(0, 200)] *)
Definition result_summary (result : ScriptResult) : Completion JSString :=
  match JSON_stringify result with
  | returns (Some text) => returns (take 200 text)
  | returns None => throws (TypeError_reading "undefined" "substring")
  | throws err => throws err
  end.

(** A value that [vm.run] throws or that rejects the awaited promise, as
    far as [err.message] reads it: an error object; [null] or [undefined];
    any other value, with what its [message] property holds ([undefined]
    for a string or a number). *)
Inductive Thrown :=
| thrown_error (e : JSError)
| thrown_nullish (n : Nullish)
| thrown_value (msg : JSVal).

(** [err.message] *)
Definition message_of (err : Thrown) : Completion JSVal :=
  match err with
  | thrown_error e => returns (v_str (message e))
  | thrown_nullish n => throws (TypeError_reading (nullish_name n) "message")
  | thrown_value msg => returns msg
  end.

(** How [await vm.run(..)] ends: the promise is fulfilled, [vm.run] throws
    or the promise is rejected (a script error, a capability error, the
    timeout of synchronous code), or the promise is never settled. *)
Inductive RunEnd :=
| run_resolves (result : ScriptResult)
| run_rejects (err : Thrown)
| run_pending.

(** One [await vm.run(..)] together with what surrounds it: the argument
    lists of the [console.log] calls made while the handler awaits the run
    (each argument already converted to a string; calls that callbacks of
    earlier runs make meanwhile are among them), how the run ends, the two
    values of [Date.now()], and the [console.log] calls that callbacks
    scheduled through [setTimeout] make while the handler is suspended on
    the delay after the run. A callback that fires after the handler has
    answered, or while it stays suspended for ever, is the action
    [DeferredLog] of the transition system. *)
Record Run := {
  logs : list (list JSString);
  outcome : RunEnd;
  startTime : Z;
  endTime : Z;
  delay_logs : list (list JSString)
}.

(** The evaluation of a script: given the sandbox, the script text, the
    name of the entry point and the number of the run in this [VM], what
    that run does. It stands for vm2, the script and the transport. *)
Definition Engine : Type :=
  list (JSString * Binding) -> JSString -> JSString -> Z -> Run.

(** The body of [POST /api/execute]. [phone] is looked up in the Map as it
    is; [target] and [code], when present, are strings; [loop], when
    present, is an integer. *)
Record ExecRequest := {
  req_phone : JSString;
  req_target : option JSString;
  req_code : option JSString;
  req_loop : option Z;
  req_delay : option Z
}.

Definition progress_event (socket_id : option JSString) (i loop : Z) : Emit :=
  {| room := socket_id; event := js "progress";
     payload := v_obj [(js "current", v_num i); (js "total", v_num loop)] |}.

Definition console_event (socket_id : option JSString) (args : list JSString) : Emit :=
  {| room := socket_id; event := js "console";
     payload := v_obj [(js "message", v_str (join (js " ") args))] |}.

Definition result_success_event (socket_id : option JSString) (i : Z)
    (text : JSString) (execTime : Z) : Emit :=
  {| room := socket_id; event := js "result";
     payload := v_obj [(js "loop", v_num i); (js "success", v_bool true);
                       (js "result", v_str text); (js "time", v_num execTime)] |}.

(** The result event of the [catch] branch, [error] being [err.message]. *)
Definition result_failed_event (socket_id : option JSString) (i : Z)
    (error : JSVal) : Emit :=
  {| room := socket_id; event := js "result";
     payload := v_obj [(js "loop", v_num i); (js "success", v_bool false);
                       (js "error", error)] |}.

(** The same for an error object. *)
Definition result_failure_event (socket_id : option JSString) (i : Z)
    (err : JSError) : Emit :=
  {| room := socket_id; event := js "result";
     payload := v_obj [(js "loop", v_num i); (js "success", v_bool false);
                       (js "error", v_str (message err))] |}.

(** [{ loop: i, success: true, time: execTime }] *)
Definition success_outcome (i execTime : Z) : JSVal :=
  v_obj [(js "loop", v_num i); (js "success", v_bool true); (js "time", v_num execTime)].

(** [{ loop: i, success: false, error: err.message }], [error] being
    [err.message]. *)
Definition failed_outcome (i : Z) (error : JSVal) : JSVal :=
  v_obj [(js "loop", v_num i); (js "success", v_bool false); (js "error", error)].

(** The same for an error object. *)
Definition failure_outcome (i : Z) (err : JSError) : JSVal :=
  v_obj [(js "loop", v_num i); (js "success", v_bool false);
         (js "error", v_str (message err))].

(** The state of the loop: the [results] array and the events emitted. *)
Record LoopState := { results : list JSVal; events : list Emit }.

(** How an iteration leaves the loop body: it falls through to the next
    iteration, it throws out of the loop to the [catch] of the handler, or
    it stays suspended on its [await] for ever. *)
Inductive Flow :=
| proceeds
| aborted (error : JSError)
| suspended.

(** [if (i < loop) await new Promise(r => setTimeout(r, delay))], with the
    console events of callbacks that fire meanwhile. *)
Definition after_delay (socket_id : option JSString) (loop i : Z)
    (late : list (list JSString)) (st : LoopState) : LoopState :=
  if i <? loop then
    {| results := results st;
       events := events st ++ map (console_event socket_id) late |}
  else st.

(** The body of the [for] loop for iteration [i]. In the [catch] branch
    [err.message] is read before anything is pushed or emitted; when that
    read throws, the error leaves the loop. *)
Definition iteration (run : Z -> Run) (socket_id : option JSString)
    (loop i : Z) (st : LoopState) : LoopState * Flow :=
  let r := run i in
  let evs := events st ++ [progress_event socket_id i loop]
             ++ map (console_event socket_id) (logs r) in
  match outcome r with
  | run_resolves result =>
      let execTime := endTime r - startTime r in
      let pushed := results st ++ [success_outcome i execTime] in
      match result_summary result with
      | returns text =>
          (after_delay socket_id loop i (delay_logs r)
             {| results := pushed;
                events := evs ++ [result_success_event socket_id i text execTime] |},
           proceeds)
      | throws err =>
          (after_delay socket_id loop i (delay_logs r)
             {| results := pushed ++ [failure_outcome i err];
                events := evs ++ [result_failure_event socket_id i err] |},
           proceeds)
      end
  | run_rejects err =>
      match message_of err with
      | returns error =>
          (after_delay socket_id loop i (delay_logs r)
             {| results := results st ++ [failed_outcome i error];
                events := evs ++ [result_failed_event socket_id i error] |},
           proceeds)
      | throws e => ({| results := results st; events := evs |}, aborted e)
      end
  | run_pending => ({| results := results st; events := evs |}, suspended)
  end.

(** [for (let i = ..; i <= loop; i++) { .. }], entered with the given [i]:
    the state when the loop is left, and how it is left. *)
Equations? for_loop (run : Z -> Run) (socket_id : option JSString)
    (loop i : Z) (st : LoopState) : LoopState * Flow
    by wf (Z.to_nat (loop + 1 - i)) lt :=
  for_loop run socket_id loop i st with Z_le_dec i loop => {
    | left _ with iteration run socket_id loop i st => {
        | (st', proceeds) := for_loop run socket_id loop (i + 1) st';
        | (st', aborted error) := (st', aborted error);
        | (st', suspended) := (st', suspended) };
    | right _ := (st, proceeds) }.
Proof. lia. Qed.

(** [!connection || connection.status !== 'connected'] *)
Definition not_connected (connection : option Connection) : bool :=
  match connection with
  | Some c => match status c with connected => false | _ => true end
  | None => true
  end.

Definition handle_of (connection : option Connection) : option nat :=
  match connection with
  | Some c => sock c
  | None => None
  end.

(** What the handler does before the loop: the response that ends the
    request there, or the name of the entry point and the target. With no
    [target] or no [code] in the body, [.includes] throws a [TypeError],
    which the [catch] of the handler answers with 500. *)
Definition pre_loop (req : ExecRequest) (w : World) : Response + (JSString * JSString) :=
  let connection := connections w !! req_phone req in
  if not_connected connection then inl (failure 400 (js "WhatsApp tidak terhubung"))
  else
    match req_target req with
    | None => inl (failure 500 (message (TypeError_reading "undefined" "includes")))
    | Some target =>
        let jid := if includes target (js "@s.whatsapp.net") then target
                   else target ++ js "@s.whatsapp.net" in
        match req_code req with
        | None => inl (failure 500 (message (TypeError_reading "undefined" "includes")))
        | Some code =>
            if negb (includes code (js "async function"))
               || negb (includes code (js "sock, target")) then
              inl (failure 400 (js "Format: async function nama(sock, target)"))
            else
              match fn_match code with
              | None => inl (failure 400 (js "Nama function tidak ditemukan"))
              | Some fnName => inr (fnName, jid)
              end
        end
    end.

(** The script text of a request that passed [pre_loop]. *)
Definition code_of (req : ExecRequest) : JSString := default [] (req_code req).

(** The response after the loop: the [results] when the loop was run
    through, 500 with the message of the error that left the loop (the
    [catch] of the handler), none when the handler stays suspended. *)
Definition loop_response (flow : Flow) (rs : list JSVal) : option Response :=
  match flow with
  | proceeds =>
      Some {| http_status := 200;
              body := v_obj [(js "success", v_bool true); (js "results", v_arr rs)] |}
  | aborted error => Some (failure 500 (message error))
  | suspended => None
  end.

(** The handler: its response, if it gives one, and the world it leaves. *)
Definition api_execute (engine : Engine) (req : ExecRequest)
    (socket_id : option JSString) (w : World) : option Response * World :=
  let loop := default 1 (req_loop req) in
  match pre_loop req w with
  | inl response => (Some response, w)
  | inr (fnName, jid) =>
      let handle := handle_of (connections w !! req_phone req) in
      let w1 := new_VM w in
      let vm := engine (sandbox handle jid socket_id) (code_of req) fnName in
      let final := for_loop vm socket_id loop 1 {| results := []; events := emitted w1 |} in
      (loop_response (snd final) (results (fst final)),
       {| connections := connections w1; sockets := sockets w1; timers := timers w1;
          emitted := events (fst final); vms := vms w1 |})
  end.

(** How iteration [i] leaves the loop body. *)
Definition iteration_flow (run : Z -> Run) (i : Z) : Flow :=
  match outcome (run i) with
  | run_resolves _ => proceeds
  | run_rejects err =>
      match message_of err with
      | returns _ => proceeds
      | throws e => aborted e
      end
  | run_pending => suspended
  end.

(** What iteration [i] appends to [results], and the event that reports
    it, if any. *)
Definition iteration_results (run : Z -> Run) (i : Z) : list JSVal :=
  match outcome (run i) with
  | run_resolves result =>
      success_outcome i (endTime (run i) - startTime (run i)) ::
      match result_summary result with
      | returns _ => []
      | throws err => [failure_outcome i err]
      end
  | run_rejects err =>
      match message_of err with
      | returns error => [failed_outcome i error]
      | throws _ => []
      end
  | run_pending => []
  end.

Definition iteration_result_event (run : Z -> Run) (socket_id : option JSString)
    (i : Z) : list Emit :=
  match outcome (run i) with
  | run_resolves result =>
      match result_summary result with
      | returns text =>
          [result_success_event socket_id i text (endTime (run i) - startTime (run i))]
      | throws err => [result_failure_event socket_id i err]
      end
  | run_rejects err =>
      match message_of err with
      | returns error => [result_failed_event socket_id i error]
      | throws _ => []
      end
  | run_pending => []
  end.

(** The console events of the delay after iteration [i]. *)
Definition iteration_delay_events (run : Z -> Run) (socket_id : option JSString)
    (loop i : Z) : list Emit :=
  match iteration_flow run i with
  | proceeds => if i <? loop then map (console_event socket_id) (delay_logs (run i)) else []
  | _ => []
  end.

(** What iteration [i] emits. *)
Definition iteration_events (run : Z -> Run) (socket_id : option JSString)
    (loop i : Z) : list Emit :=
  progress_event socket_id i loop
  :: map (console_event socket_id) (logs (run i))
  ++ iteration_result_event run socket_id i
  ++ iteration_delay_events run socket_id loop i.

(** The iterations of [l] that are entered, in order, and how the loop over
    [l] is left: the loop stops at the first iteration that does not
    proceed. *)
Fixpoint entered (run : Z -> Run) (l : list Z) : list Z * Flow :=
  match l with
  | [] => ([], proceeds)
  | i :: l' =>
      match iteration_flow run i with
      | proceeds => let '(rest, flow) := entered run l' in (i :: rest, flow)
      | flow => ([i], flow)
      end
  end.


(** The run function the handler obtains for a request it accepts. *)
Definition run_of (engine : Engine) (req : ExecRequest)
    (socket_id : option JSString) (w : World) (fnName jid : JSString) : Z -> Run :=
  engine (sandbox (handle_of (connections w !! req_phone req)) jid socket_id)
         (code_of req) fnName.

(** The [results] array of a response. *)
Definition results_of (r : Response) : list JSVal :=
  match field (js "results") (body r) with
  | Some (v_arr rs) => rs
  | _ => []
  end.






(** ** The transition system *)

(** The requests, the reports of the transport, the clean-up timers, and
    [DeferredLog]: a callback that a script scheduled through [setTimeout]
    calls [console.log] outside the turns of its request. *)
Inductive Action :=
| Pair (env : PairEnv) (phone : JSString) (socket_id : option JSString)
| Execute (engine : Engine) (req : ExecRequest) (socket_id : option JSString)
| Disconnect (end_fault : option JSError) (phone : JSString)
| ConnectionUpdate (h : nat) (update : ConnUpdate)
| CleanupTimer (n : nat)
| DeferredLog (socket_id : option JSString) (args : list JSString).

Definition step (a : Action) (w : World) : World :=
  match a with
  | Pair env phone socket_id => snd (api_pairing env phone socket_id w)
  | Execute engine req socket_id => snd (api_execute engine req socket_id w)
  | Disconnect end_fault phone => snd (api_disconnect end_fault phone w)
  | ConnectionUpdate h update => on_connection_update h update w
  | CleanupTimer n => on_cleanup_timer n w
  | DeferredLog socket_id args =>
      emit socket_id (js "console")
        (v_obj [(js "message", v_str (join (js " ") args))]) w
  end.

(** The world after a sequence of actions, the first one first. *)
Definition run_actions (actions : list Action) (w : World) : World :=
  fold_left (fun w a => step a w) actions w.

Inductive reachable : World -> Prop :=
| reachable_init : reachable init
| reachable_step a w : reachable w -> reachable (step a w).

(** An identity key as the registry writes it: digits only, ten to fifteen
    of them. *)
Definition normalized (key : JSString) : Prop :=
  Forall (fun c => is_digit c = true) key /\ (10 <= length key <= 15)%nat.

(** The transport handles made for [key] that are still live. *)
Definition live_handles (key : JSString) (w : World) : list Socket :=
  List.filter (fun s => bool_decide (for_phone s = key) && live s) (sockets w).

(** The events of one name among [evs]. *)
Definition events_named (name : JSString) (evs : list Emit) : list Emit :=
  List.filter (fun e => bool_decide (event e = name)) evs.

(** The events a handler added to those of [w]. *)
Definition new_events (w w' : World) : list Emit :=
  drop (length (emitted w)) (emitted w').

(** What every reachable world satisfies: the keys of the registry, the
    keys the listeners close over and the keys of the pending timers are
    normalized. *)
Definition registry_inv (w : World) : Prop :=
  (forall k c, connections w !! k = Some c -> normalized k)
  /\ Forall (fun s => normalized (for_phone s)) (sockets w)
  /\ Forall normalized (timers w).

(** At most one live transport handle per identity key. *)
Definition one_live_handle_per_key (w : World) : Prop :=
  forall key, (length (live_handles key w) <= 1)%nat.

(** ** Concrete requests and worlds used by the examples below *)

Definition env0 : PairEnv := {| now := 1000; auth_fault := None; socket_fault := None |}.

Definition phone0 : JSString := js "6281234567890".

Definition room0 : option JSString := Some (js "client-1").

(** Pairing [+62 812-3456-7890], after which the transport reports
    ['open']. *)
Definition world_connected : World :=
  run_actions [Pair env0 (js "+62 812-3456-7890") room0;
               ConnectionUpdate 0 (upd_open (returns (js "ABCD1234")))] init.

(** Pairing the same identifier twice before the transport reports
    anything. *)
Definition world_paired_twice : World :=
  run_actions [Pair env0 phone0 room0; Pair env0 phone0 room0] init.

Definition code0 : JSString :=
  js "async function kirim(sock, target) { await sock.sendText(target, 'halo') }".

Definition code1 : JSString :=
  js "async function kirim(sock, target) { await sock.sendText(target, 'halo'); return [1, 2] }".

Definition request (code : JSString) (loop : Z) : ExecRequest :=
  {| req_phone := phone0; req_target := Some (js "628999000111"); req_code := Some code;
     req_loop := Some loop; req_delay := Some 0 |}.

(** Runs of [code1] in which every send succeeds. *)
Definition engine_ok : Engine := fun _ _ _ i =>
  {| logs := []; outcome := run_resolves (ret_json (js "[1,2]"));
     startTime := 100 * i; endTime := 100 * i + 7; delay_logs := [] |}.

(** Runs of [code1] in which the send of the second run fails. *)
Definition engine_second_fails : Engine := fun _ _ _ i =>
  {| logs := [];
     outcome := if i =? 2
                then run_rejects (thrown_error (new_Error (js "Gagal kirim: Connection Closed")))
                else run_resolves (ret_json (js "[1,2]"));
     startTime := 100 * i; endTime := 100 * i + 7; delay_logs := [] |}.

(** Runs of [code0], whose entry point resolves to [undefined], in which
    the send of the second run fails. *)
Definition engine_undefined : Engine := fun _ _ _ i =>
  {| logs := [];
     outcome := if i =? 2
                then run_rejects (thrown_error (new_Error (js "Gagal kirim: Connection Closed")))
                else run_resolves ret_undefined;
     startTime := 100 * i; endTime := 100 * i + 7; delay_logs := [] |}.

(** A transport whose sends succeed with a fixed message id and whose
    status lookups are refused. *)
Definition transport_ok : Transport :=
  {| transport_sendMessage := fun _ _ => returns (res_key (Some (js "3EB0A1B2C3")));
     transport_fetchStatus := fun _ =>
       throws {| message := js "not-authorized"; statusCode := Some 401 |} |}.

(** A transport whose connection is closed. *)
Definition transport_closed : Transport :=
  {| transport_sendMessage := fun _ _ =>
       throws {| message := js "Connection Closed"; statusCode := Some 428 |};
     transport_fetchStatus := fun _ =>
       throws {| message := js "Connection Closed"; statusCode := Some 428 |} |}.

(** The names the module [Server.js] binds around the handlers. *)
Definition ambient_names : list JSString :=
  [js "process"; js "require"; js "module"; js "fs"; js "path"; js "express";
   js "app"; js "httpServer"; js "io"; js "connections"; js "authDir";
   js "makeWASocket"; js "useMultiFileAuthState"; js "dotenv"; js "cors"].

(** ** Further definitions *)

(** The record a listener writes when the registry has none for its key. *)
Definition bare (s : Status) : Connection :=
  {| sock := None; saveCreds := None; status := s; socketId := None; createdAt := None |}.

(** The iteration an event of the loop belongs to: [current] of a progress
    event, [loop] of a result event. *)
Definition event_iteration (e : Emit) : option JSVal :=
  match field (js "current") (payload e) with
  | Some v => Some v
  | None => field (js "loop") (payload e)
  end.

(** A request with another target. *)
Definition with_target (target : JSString) (req : ExecRequest) : ExecRequest :=
  {| req_phone := req_phone req; req_target := Some target; req_code := req_code req;
     req_loop := req_loop req; req_delay := req_delay req |}.

(** [s.replace(/-/g, '')], which undoes the dashes of a pairing code. *)
Definition strip_dashes (s : JSString) : JSString :=
  List.filter (fun c => negb (c =? 45)%N) s.

(** After pairing and connecting, a disconnect request, and then a late
    ['open'] from the handle that was ended. *)
Definition world_resurrected : World :=
  run_actions [Pair env0 (js "+62 812-3456-7890") room0;
               ConnectionUpdate 0 (upd_open (returns (js "ABCD1234")));
               Disconnect None phone0;
               ConnectionUpdate 0 (upd_open (throws (new_Error (js "Connection Closed"))))]
              init.

(** Runs that log two arguments, resolve to a number, and leave a callback
    that logs during the delay. *)
Definition engine_logging : Engine := fun _ _ _ i =>
  {| logs := [[js "iterasi"; js "selesai"]]; outcome := run_resolves (ret_json (js "1"));
     startTime := 100 * i; endTime := 100 * i + 7; delay_logs := [[js "nanti"]] |}.

(** A transport whose sends resolve to [undefined]. *)
Definition transport_silent : Transport :=
  {| transport_sendMessage := fun _ _ => returns (res_nullish is_undefined);
     transport_fetchStatus := fun _ => returns None |}.

(** Every transport handle of [w] is a handle of [w'] at the same index,
    with the same key and room, and is not live in [w'] if it was not live
    in [w]. *)
Definition handles_kept (w w' : World) : Prop :=
  forall h s, sockets w !! h = Some s ->
    exists s', sockets w' !! h = Some s'
               /\ for_phone s' = for_phone s /\ for_room s' = for_room s
               /\ (live s = false -> live s' = false).

(** A record of the registry agrees with the handles: a record that holds
    a handle holds one made for its key and for its room, with the auth
    folder of the key and a creation time; a record that holds none has
    nothing but a status, which is not [connecting]. *)
Definition record_consistent (w : World) (k : JSString) (c : Connection) : Prop :=
  match sock c with
  | Some h =>
      (exists s, sockets w !! h = Some s /\ for_phone s = k /\ for_room s = socketId c)
      /\ saveCreds c = Some k /\ is_Some (createdAt c)
  | None => c = bare (status c) /\ status c <> connecting
  end.

(** A script that throws [null] while [vm.run] evaluates it. *)
Definition code_throw_null : JSString :=
  js "throw null; async function kirim(sock, target) { }".

(** Runs of [code_throw_null]: [vm.run] throws [null]. *)
Definition engine_throws_null : Engine := fun _ _ _ i =>
  {| logs := []; outcome := run_rejects (thrown_nullish is_null);
     startTime := 100 * i; endTime := 100 * i; delay_logs := [] |}.

(** A script whose only declaration has no parameter. *)
Definition code_no_parameters : JSString :=
  js "async function kirim() { return 'sock, target' }".

(** Runs of [code_no_parameters], which resolve to a string; its JSON text
    is the string between two quotation marks (code unit 34). *)
Definition engine_text : Engine := fun _ _ _ i =>
  {| logs := [];
     outcome := run_resolves (ret_json (34%N :: js "sock, target" ++ [34%N]));
     startTime := 100 * i; endTime := 100 * i + 1; delay_logs := [] |}.

(** In the words of the specification: the script text has an async
    function declaration whose parameter list includes a capability
    parameter and a target parameter. Read on the text, at its start:
    [async function], white space, a name, optional white space, and a
    parenthesised parameter list with a comma that has a word code unit
    on either side. *)
Definition spec_declaration_here (s : JSString) : bool :=
  if starts_with (js "async function") s then
    let rest := drop (length (js "async function")) s in
    let spaces := take_while is_space rest in
    let after := drop (length spaces) rest in
    let name := take_while is_word after in
    let after_name := drop (length name) after in
    let after_space := drop (length (take_while is_space after_name)) after_name in
    match spaces, name, after_space with
    | _ :: _, _ :: _, 40%N :: rest' =>
        let params := take_while (fun c => negb (c =? 41)%N) rest' in
        let first := take_while (fun c => negb (c =? 44)%N) params in
        existsb is_word first && existsb is_word (drop (S (length first)) params)
    | _, _, _ => false
    end
  else false.

(** The same anywhere in the text. *)
Fixpoint spec_has_declaration (code : JSString) : bool :=
  spec_declaration_here code ||
  match code with
  | [] => false
  | _ :: code' => spec_has_declaration code'
  end.

(** * Properties *)

(** ** Strings *)

Lemma strip_non_digits_digits s :
  Forall (fun c => is_digit c = true) (strip_non_digits s).
Proof.
  unfold strip_non_digits. apply List.Forall_forall.
  intros c Hc. apply List.filter_In in Hc. tauto.
Qed.

Lemma strip_non_digits_sublist s : sublist (strip_non_digits s) s.
Proof.
  unfold strip_non_digits.
  induction s as [|c s IH]; simpl; [constructor|].
  destruct (is_digit c); by constructor.
Qed.

Lemma strip_non_digits_id s :
  Forall (fun c => is_digit c = true) s -> strip_non_digits s = s.
Proof.
  unfold strip_non_digits. induction 1 as [|c s Hc _ IH]; simpl; [done|].
  by rewrite Hc, IH.
Qed.

Lemma strip_non_digits_changes s c :
  In c s -> is_digit c = false -> strip_non_digits s <> s.
Proof.
  intros Hin Hc Heq.
  pose proof (strip_non_digits_digits s) as Hd. rewrite Heq in Hd.
  rewrite List.Forall_forall in Hd. specialize (Hd c Hin). congruence.
Qed.

Lemma normalized_strip s :
  ((length (strip_non_digits s) <? 10) || (15 <? length (strip_non_digits s)))%nat = false ->
  normalized (strip_non_digits s).
Proof.
  intros H. apply orb_false_elim in H as [H1 H2].
  apply Nat.ltb_ge in H1, H2.
  split; [apply strip_non_digits_digits | lia].
Qed.

(** ** The registry holds normalized keys only *)

Lemma registry_inv_init : registry_inv init.
Proof.
  split; [|split]; simpl; [|constructor..].
  intros k c H. by rewrite lookup_empty in H.
Qed.

Lemma registry_inv_pairing env phone socket_id w :
  registry_inv w -> registry_inv (snd (api_pairing env phone socket_id w)).
Proof.
  intros (Hc & Hs & Ht). unfold api_pairing.
  destruct (_ || _)%bool eqn:Hlen; [done|].
  destruct (already_connected _ w); [done|].
  destruct (auth_fault env); [done|].
  destruct (socket_fault env); [done|].
  pose proof (normalized_strip _ Hlen) as Hn.
  split; [|split]; simpl.
  - intros k c. rewrite lookup_insert. case_decide; [by subst | apply Hc].
  - apply Forall_app. split; [done|]. by constructor.
  - done.
Qed.

Lemma registry_inv_mark_closed h w : registry_inv w -> registry_inv (mark_closed h w).
Proof.
  intros (Hc & Hs & Ht). unfold mark_closed.
  destruct (sockets w !! h) as [s|] eqn:Hh; [|done].
  split; [|split]; simpl; [done| |done].
  apply Forall_insert; [done|]. simpl.
  rewrite Forall_lookup in Hs. exact (Hs _ _ Hh).
Qed.

Lemma registry_inv_mark_ended h w : registry_inv w -> registry_inv (mark_ended h w).
Proof.
  intros (Hc & Hs & Ht). unfold mark_ended.
  destruct (sockets w !! h) as [s|] eqn:Hh; [|done].
  split; [|split]; simpl; [done| |done].
  apply Forall_insert; [done|]. simpl.
  rewrite Forall_lookup in Hs. exact (Hs _ _ Hh).
Qed.

Lemma mark_closed_connections h w : connections (mark_closed h w) = connections w.
Proof. unfold mark_closed. by destruct (sockets w !! h). Qed.

Lemma mark_closed_timers h w : timers (mark_closed h w) = timers w.
Proof. unfold mark_closed. by destruct (sockets w !! h). Qed.

Lemma registry_inv_connection_update h update w :
  registry_inv w -> registry_inv (on_connection_update h update w).
Proof.
  intros Hinv. unfold on_connection_update.
  destruct (sockets w !! h) as [s|] eqn:Hh; [|done].
  assert (Hn : normalized (for_phone s)).
  { destruct Hinv as (_ & Hs & _). rewrite Forall_lookup in Hs. exact (Hs _ _ Hh). }
  destruct update as [code|reason|]; [| |done].
  - destruct Hinv as (Hc & Hs & Ht).
    assert (registry_inv (set_connections
              (<[for_phone s := with_status (connections w !! for_phone s) connected]>
                 (connections w)) w)) as (Hc1 & Hs1 & Ht1).
    { split; [|split]; simpl; [|done..].
      intros k c. rewrite lookup_insert. case_decide; [by subst | apply Hc]. }
    destruct code as [code|e]; [destruct (groups_of_4 code [])|]; by split.
  - pose proof (registry_inv_mark_closed h w Hinv) as (Hc & Hs & Ht).
    split; [|split]; simpl.
    + intros k c. rewrite lookup_insert. case_decide; [by subst | apply Hc].
    + done.
    + apply Forall_app. split; [done|]. by constructor.
Qed.

Lemma registry_inv_cleanup_timer n w :
  registry_inv w -> registry_inv (on_cleanup_timer n w).
Proof.
  intros (Hc & Hs & Ht). unfold on_cleanup_timer.
  destruct (timers w !! n) as [k|] eqn:Hn; [|done].
  assert (Ht' : Forall normalized (delete n (timers w))) by by apply Forall_delete.
  simpl. destruct (connections w !! k) as [c|] eqn:Hk; [|by split].
  destruct (status c); try by split.
  split; [|split]; simpl; [|done..].
  intros k' c'. rewrite lookup_delete. case_decide; [done | apply Hc].
Qed.

Lemma registry_inv_disconnect end_fault phone w :
  registry_inv w -> registry_inv (snd (api_disconnect end_fault phone w)).
Proof.
  intros Hinv. unfold api_disconnect.
  destruct (connections w !! phone) as [c|]; [|done].
  destruct (sock c) as [h|]; [|done].
  destruct end_fault; [done|].
  pose proof (registry_inv_mark_ended h w Hinv) as (Hc & Hs & Ht).
  split; [|split]; simpl; [|done..].
  intros k' c'. rewrite lookup_delete. case_decide; [done | apply Hc].
Qed.

(** [POST /api/execute] touches neither the registry, the transport handles
    nor the timers. *)
Lemma api_execute_frame engine req socket_id w :
  let w' := snd (api_execute engine req socket_id w) in
  connections w' = connections w /\ sockets w' = sockets w /\ timers w' = timers w.
Proof.
  unfold api_execute. by destruct (pre_loop req w) as [r|[fnName jid]].
Qed.

Lemma registry_inv_execute engine req socket_id w :
  registry_inv w -> registry_inv (snd (api_execute engine req socket_id w)).
Proof.
  intros (Hc & Hs & Ht).
  destruct (api_execute_frame engine req socket_id w) as (E1 & E2 & E3).
  unfold registry_inv. by rewrite E1, E2, E3.
Qed.

Lemma registry_inv_step a w : registry_inv w -> registry_inv (step a w).
Proof.
  destruct a; simpl.
  - apply registry_inv_pairing.
  - apply registry_inv_execute.
  - apply registry_inv_disconnect.
  - apply registry_inv_connection_update.
  - apply registry_inv_cleanup_timer.
  - intros H. exact H.
Qed.

Lemma reachable_registry_inv w : reachable w -> registry_inv w.
Proof.
  induction 1 as [|a w _ IH]; [apply registry_inv_init | by apply registry_inv_step].
Qed.

Lemma reachable_run_actions actions w :
  reachable w -> reachable (run_actions actions w).
Proof.
  revert w. induction actions as [|a actions IH]; intros w Hw; simpl; [done|].
  apply IH. by constructor.
Qed.

Lemma reachable_keys_normalized w k c :
  reachable w -> connections w !! k = Some c -> normalized k.
Proof. intros Hw. destruct (reachable_registry_inv w Hw) as (Hc & _). apply Hc. Qed.

(** ** Pairing: identifier normalization *)

Lemma strip_non_digits_greatest d s :
  sublist d s -> Forall (fun c => is_digit c = true) d -> sublist d (strip_non_digits s).
Proof.
  unfold strip_non_digits.
  induction 1 as [|c d s _ IH|c d s _ IH]; intros Hd; simpl.
  - constructor.
  - inversion Hd as [|? ? Hc Hd']; subst. rewrite Hc. constructor. by apply IH.
  - destruct (is_digit c); [constructor|]; by apply IH.
Qed.

(** C5. The pairing handler validates the identifier with its non-digit
    code units stripped: the stripped string holds digits only, is a
    subsequence of the input and contains every digits-only subsequence of
    it. When it is shorter than 10 or longer than 15, the handler answers
    400 with the invalid-number error and leaves the world as it was: no
    transport handle is made, no record written, nothing emitted. *)
Theorem pairing_rejects_bad_identifier env phone socket_id w :
  let cleanPhone := strip_non_digits phone in
  (length cleanPhone < 10 \/ 15 < length cleanPhone)%nat ->
  Forall (fun c => is_digit c = true) cleanPhone
  /\ sublist cleanPhone phone
  /\ (forall d, sublist d phone -> Forall (fun c => is_digit c = true) d ->
                sublist d cleanPhone)
  /\ api_pairing env phone socket_id w = (failure 400 (js "Nomor tidak valid"), w).
Proof.
  intros cleanPhone Hlen.
  split; [apply strip_non_digits_digits|].
  split; [apply strip_non_digits_sublist|].
  split; [intros d; apply strip_non_digits_greatest|].
  unfold api_pairing. fold cleanPhone.
  assert (((length cleanPhone <? 10) || (15 <? length cleanPhone))%nat = true) as ->; [|done].
  apply orb_true_iff. destruct Hlen; [left|right]; by apply Nat.ltb_lt.
Qed.

Lemma pairing_rejects_bad_identifier_witness :
  (length (strip_non_digits (js "+62 (812) 345")) < 10
   \/ 15 < length (strip_non_digits (js "+62 (812) 345")))%nat
  /\ api_pairing env0 (js "+62 (812) 345") room0 world_connected
     = (failure 400 (js "Nomor tidak valid"), world_connected).
Proof.
  split.
  - left. vm_compute. lia.
  - apply (pairing_rejects_bad_identifier env0 (js "+62 (812) 345") room0 world_connected).
    left. vm_compute. lia.
Defined.

Example strip_non_digits_example :
  strip_non_digits (js "+62 812-3456-7890") = js "6281234567890"
  /\ length (js "6281234567890") = 13%nat.
Proof. split; reflexivity. Qed.

(** ** Pairing: an identity that is already connected *)

(** C6, as amended. In every reachable world the registry lists each
    identity key once, and a pairing request for an identity whose record
    is [connected] answers 200 [Already connected] with the normalized key
    and leaves the world as it was: no transport handle is made and the
    registry is not written. *)
Theorem pairing_connected_is_noop env phone socket_id w :
  reachable w ->
  already_connected (strip_non_digits phone) w = true ->
  api_pairing env phone socket_id w
    = (paired (js "Already connected") (strip_non_digits phone), w)
  /\ NoDup (map fst (map_to_list (connections w))).
Proof.
  intros Hw Hconn. split; [|apply NoDup_fst_map_to_list].
  unfold api_pairing. rewrite Hconn.
  unfold already_connected in Hconn.
  destruct (connections w !! strip_non_digits phone) as [c|] eqn:Hk; [|done].
  destruct (reachable_keys_normalized w _ c Hw Hk) as [_ Hlen].
  assert (((length (strip_non_digits phone) <? 10)
           || (15 <? length (strip_non_digits phone)))%nat = false) as ->; [|done].
  apply orb_false_iff. split; apply Nat.ltb_ge; lia.
Qed.

Lemma reachable_world_connected : reachable world_connected.
Proof. apply reachable_run_actions, reachable_init. Qed.

Lemma pairing_connected_is_noop_witness :
  reachable world_connected
  /\ already_connected (strip_non_digits (js "+62 812-3456-7890")) world_connected = true
  /\ api_pairing env0 (js "+62 812-3456-7890") room0 world_connected
     = (paired (js "Already connected") phone0, world_connected).
Proof.
  split; [apply reachable_world_connected|].
  split; [vm_compute; reflexivity|].
  apply (pairing_connected_is_noop env0 (js "+62 812-3456-7890") room0 world_connected).
  - apply reachable_world_connected.
  - vm_compute; reflexivity.
Defined.

(** C6, as stated, fails: pairing an identity twice before its transport
    reports anything leaves two live transport handles for the one key. *)
Lemma two_live_handles_for_one_key :
  reachable world_paired_twice /\ ~ one_live_handle_per_key world_paired_twice.
Proof.
  split; [apply reachable_run_actions, reachable_init|].
  intros H. specialize (H phone0). vm_compute in H. lia.
Qed.

(** ** Execute: the identity key is looked up verbatim *)

(** C10. In every reachable world, an execute request whose identity key
    contains a code unit that is not a digit answers 400 with the
    not-connected error and changes nothing, whatever session exists for
    the normalized key. *)
Theorem execute_key_verbatim engine req socket_id w :
  reachable w ->
  (exists c, In c (req_phone req) /\ is_digit c = false) ->
  api_execute engine req socket_id w
  = (Some (failure 400 (js "WhatsApp tidak terhubung")), w).
Proof.
  intros Hw (c & Hin & Hc).
  unfold api_execute, pre_loop.
  destruct (connections w !! req_phone req) as [conn|] eqn:Hk; [|done].
  destruct (reachable_keys_normalized w _ conn Hw Hk) as [Hd _].
  rewrite List.Forall_forall in Hd. specialize (Hd c Hin). congruence.
Qed.


(** ** The loop of the execute handler *)

Lemma iteration_spec run socket_id loop i st :
  iteration run socket_id loop i st
  = ({| results := results st ++ iteration_results run i;
        events := events st ++ iteration_events run socket_id loop i |},
     iteration_flow run i).
Proof.
  unfold iteration, iteration_results, iteration_events, iteration_result_event,
    iteration_delay_events, iteration_flow, after_delay.
  destruct (outcome (run i)) as [result|err|]; cbn [app].
  - destruct (result_summary result) as [text|err]; destruct (i <? loop);
      cbn [results events app]; rewrite <- ?app_assoc, ?app_nil_r; reflexivity.
  - destruct (message_of err) as [error|e]; [destruct (i <? loop)|];
      cbn [results events app]; rewrite <- ?app_assoc, ?app_nil_r; reflexivity.
  - rewrite <- ?app_assoc, ?app_nil_r. reflexivity.
Qed.

(** The loop enters the iterations [i], [i+1], .. in order, each one once,
    up to [loop] or to the first one that does not proceed. *)
Lemma for_loop_spec run socket_id loop i st :
  for_loop run socket_id loop i st
  = ({| results := results st
                   ++ flat_map (iteration_results run)
                        (fst (entered run (seqZ i (loop + 1 - i))));
        events := events st
                  ++ flat_map (iteration_events run socket_id loop)
                       (fst (entered run (seqZ i (loop + 1 - i)))) |},
     snd (entered run (seqZ i (loop + 1 - i)))).
Proof.
  funelim (for_loop run socket_id loop i st).
  - rewrite seqZ_nil by lia. cbn [entered fst snd flat_map]. rewrite !app_nil_r.
    by destruct st.
  - rewrite iteration_spec in Heq. injection Heq as <- Hflow.
    rewrite H. cbn [results events].
    rewrite (seqZ_cons i) by lia. cbn [entered]. rewrite Hflow.
    replace (loop + 1 - (i + 1)) with (Z.pred (loop + 1 - i)) by lia.
    replace (Z.succ i) with (i + 1) by lia.
    destruct (entered run (seqZ (i + 1) (Z.pred (loop + 1 - i)))) as [rest flow].
    cbn [fst snd flat_map]. by rewrite <- !app_assoc.
  - rewrite iteration_spec in Heq. injection Heq as <- Hflow.
    rewrite (seqZ_cons i) by lia. cbn [entered]. rewrite Hflow.
    cbn [fst snd flat_map]. by rewrite !app_nil_r.
  - rewrite iteration_spec in Heq. injection Heq as <- Hflow.
    rewrite (seqZ_cons i) by lia. cbn [entered]. rewrite Hflow.
    cbn [fst snd flat_map]. by rewrite !app_nil_r.
Qed.

Lemma entered_all run l :
  Forall (fun i => iteration_flow run i = proceeds) l -> entered run l = (l, proceeds).
Proof.
  induction 1 as [|i l Hi _ IH]; [done|]. cbn [entered]. by rewrite Hi, IH.
Qed.

Lemma entered_proceeds run l :
  snd (entered run l) = proceeds ->
  fst (entered run l) = l /\ Forall (fun i => iteration_flow run i = proceeds) l.
Proof.
  induction l as [|i l IH]; [by split|]. cbn [entered].
  destruct (iteration_flow run i) eqn:Hi; [|done..].
  destruct (entered run l) as [rest flow]. cbn [fst snd] in *.
  intros Hf. destruct (IH Hf) as [-> Hall]. split; [done | by constructor].
Qed.


(** The response and the world of a request that passes the checks made
    before the loop. *)
Lemma api_execute_accepted engine req socket_id w fnName jid :
  pre_loop req w = inr (fnName, jid) ->
  let N := default 1 (req_loop req) in
  let run := run_of engine req socket_id w fnName jid in
  api_execute engine req socket_id w
  = (loop_response (snd (entered run (seqZ 1 N)))
       (flat_map (iteration_results run) (fst (entered run (seqZ 1 N)))),
     {| connections := connections w; sockets := sockets w; timers := timers w;
        emitted := emitted w
                   ++ flat_map (iteration_events run socket_id N)
                        (fst (entered run (seqZ 1 N)));
        vms := S (vms w) |}).
Proof.
  intros Hpre N run. unfold api_execute. rewrite Hpre.
  rewrite for_loop_spec.
  cbn [fst snd results events new_VM connections sockets timers emitted vms].
  fold N. fold (run_of engine req socket_id w fnName jid). fold run.
  replace (N + 1 - 1) with N by lia. reflexivity.
Qed.

(** The same when the loop is run through. *)
Lemma api_execute_completed engine req socket_id w fnName jid :
  pre_loop req w = inr (fnName, jid) ->
  let N := default 1 (req_loop req) in
  let run := run_of engine req socket_id w fnName jid in
  Forall (fun i => iteration_flow run i = proceeds) (seqZ 1 N) ->
  api_execute engine req socket_id w
  = (Some {| http_status := 200;
             body := v_obj [(js "success", v_bool true);
                            (js "results",
                             v_arr (flat_map (iteration_results run) (seqZ 1 N)))] |},
     {| connections := connections w; sockets := sockets w; timers := timers w;
        emitted := emitted w ++ flat_map (iteration_events run socket_id N) (seqZ 1 N);
        vms := S (vms w) |}).
Proof.
  intros Hpre N run Hall.
  pose proof (api_execute_accepted engine req socket_id w fnName jid Hpre) as Hexec.
  cbv zeta in Hexec. fold N run in Hexec. by rewrite (entered_all run _ Hall) in Hexec.
Qed.

(** A response 200 is given only after the loop was run through. *)
Lemma responded_200 engine req socket_id w fnName jid response :
  pre_loop req w = inr (fnName, jid) ->
  fst (api_execute engine req socket_id w) = Some response ->
  http_status response = 200 ->
  Forall (fun i => iteration_flow (run_of engine req socket_id w fnName jid) i = proceeds)
    (seqZ 1 (default 1 (req_loop req))).
Proof.
  intros Hpre Hr H200.
  pose proof (api_execute_accepted engine req socket_id w fnName jid Hpre) as Hexec.
  cbv zeta in Hexec. rewrite Hexec in Hr. cbn [fst] in Hr.
  apply entered_proceeds.
  destruct (snd (entered _ _)) as [|e|]; [done| |done].
  cbn [loop_response] in Hr. injection Hr as <-. cbn in H200. lia.
Qed.

Lemma new_events_app w evs c s t v :
  new_events w {| connections := c; sockets := s; timers := t;
                  emitted := emitted w ++ evs; vms := v |} = evs.
Proof. unfold new_events. cbn [emitted]. by rewrite drop_app_length. Qed.

Lemma events_named_app name evs1 evs2 :
  events_named name (evs1 ++ evs2) = events_named name evs1 ++ events_named name evs2.
Proof. apply List.filter_app. Qed.

Lemma events_named_console name socket_id logs :
  name <> js "console" -> events_named name (map (console_event socket_id) logs) = [].
Proof.
  intros Hne. induction logs as [|args logs IH]; [done|].
  cbn [map events_named List.filter]. fold (events_named name (map (console_event socket_id) logs)).
  rewrite IH. cbn [console_event event].
  rewrite bool_decide_eq_false_2; [done | congruence].
Qed.

Lemma events_named_delay name run socket_id loop i :
  name <> js "console" ->
  events_named name (iteration_delay_events run socket_id loop i) = [].
Proof.
  intros Hne. unfold iteration_delay_events.
  destruct (iteration_flow run i); [|done..].
  destruct (i <? loop); [by apply events_named_console | done].
Qed.

Lemma result_events_named run socket_id i :
  events_named (js "result") (iteration_result_event run socket_id i)
  = iteration_result_event run socket_id i.
Proof.
  unfold iteration_result_event.
  destruct (outcome (run i)) as [result|err|];
    [destruct (result_summary result)|destruct (message_of err)|]; reflexivity.
Qed.

Lemma result_events_not_named name run socket_id i :
  name <> js "result" ->
  events_named name (iteration_result_event run socket_id i) = [].
Proof.
  intros Hne. unfold iteration_result_event.
  destruct (outcome (run i)) as [result|err|];
    [destruct (result_summary result)|destruct (message_of err)|];
    cbn [events_named List.filter event result_success_event result_failure_event
           result_failed_event];
    rewrite ?bool_decide_eq_false_2; congruence.
Qed.

Lemma progress_of_iteration run socket_id loop i :
  events_named (js "progress") (iteration_events run socket_id loop i)
  = [progress_event socket_id i loop].
Proof.
  unfold iteration_events.
  change (progress_event socket_id i loop :: ?l) with ([progress_event socket_id i loop] ++ l).
  rewrite !events_named_app, events_named_console, result_events_not_named,
    events_named_delay by discriminate.
  reflexivity.
Qed.

Lemma result_of_iteration run socket_id loop i :
  events_named (js "result") (iteration_events run socket_id loop i)
  = iteration_result_event run socket_id i.
Proof.
  unfold iteration_events.
  change (progress_event socket_id i loop :: ?l) with ([progress_event socket_id i loop] ++ l).
  rewrite !events_named_app, events_named_console, result_events_named,
    events_named_delay by discriminate.
  cbn [events_named List.filter progress_event event]. by rewrite app_nil_r.
Qed.



(** C2 at a failing input. Three iterations of a script that throws [null]
    while [vm.run] evaluates it: the request passes the checks before the
    loop and the progress event of iteration 1 is emitted, but reading
    [err.message] in the [catch] of the iteration throws, the loop is
    left, and the request is answered 500: one progress event and no
    result event for a loop count of three. *)
Theorem thrown_null_ends_the_loop :
  let r := api_execute engine_throws_null (request code_throw_null 3) room0
             world_connected in
  pre_loop (request code_throw_null 3) world_connected
    = inr (js "kirim", js "628999000111@s.whatsapp.net")
  /\ fst r = Some {| http_status := 500;
                     body := v_obj [(js "success", v_bool false);
                                    (js "error",
                                     v_str (js "Cannot read properties of null (reading 'message')"))] |}
  /\ map payload (events_named (js "progress") (new_events world_connected (snd r)))
     = [v_obj [(js "current", v_num 1); (js "total", v_num 3)]]
  /\ events_named (js "result") (new_events world_connected (snd r)) = [].
Proof. vm_compute. repeat split; reflexivity. Qed.

(** ** The entries of [results] *)






Lemma iteration_results_nonempty run i :
  iteration_flow run i = proceeds -> iteration_results run i <> [].
Proof.
  unfold iteration_flow, iteration_results.
  destruct (outcome (run i)) as [result|err|]; [done| |done].
  by destruct (message_of err).
Qed.


















(** C3 at a failing input. Two iterations of a script whose entry point
    resolves to [undefined], the second one failing in the transport: the
    request is answered 200, but [results] has three entries for the two
    iterations, the first iteration being recorded as a success and as a
    failure. *)
Theorem three_outcomes_for_two_iterations :
  exists response,
    fst (api_execute engine_undefined (request code0 2) room0 world_connected)
    = Some response
    /\ http_status response = 200
    /\ results_of response
       = [success_outcome 1 7;
          failure_outcome 1 (TypeError_reading "undefined" "substring");
          failure_outcome 2 (new_Error (js "Gagal kirim: Connection Closed"))]
    /\ length (results_of response) = 3%nat.
Proof. eexists. split; [vm_compute; reflexivity|]. vm_compute. repeat split; reflexivity. Qed.

(** C9 at a failing input. One iteration of a script whose entry point
    resolves to [undefined]: the only result event reports a failure, and
    [results] records the iteration as a success and then as a failure. *)
Theorem undefined_result_recorded_twice :
  let r := api_execute engine_undefined (request code0 1) room0 world_connected in
  (exists response,
     fst r = Some response
     /\ results_of response
        = [success_outcome 1 7;
           failure_outcome 1 (TypeError_reading "undefined" "substring")])
  /\ events_named (js "result") (new_events world_connected (snd r))
     = [result_failure_event room0 1 (TypeError_reading "undefined" "substring")].
Proof.
  split; [eexists; split; [vm_compute; reflexivity|]|]; vm_compute; reflexivity.
Qed.

Lemma execute_key_verbatim_witness :
  reachable world_connected
  /\ (exists c, In c (js "+62 812-3456-7890") /\ is_digit c = false)
  /\ already_connected (strip_non_digits (js "+62 812-3456-7890")) world_connected = true
  /\ api_execute engine_ok
       {| req_phone := js "+62 812-3456-7890"; req_target := Some (js "628999000111");
          req_code := Some code1; req_loop := Some 1; req_delay := None |}
       room0 world_connected
     = (Some (failure 400 (js "WhatsApp tidak terhubung")), world_connected).
Proof.
  assert (H : exists c, In c (js "+62 812-3456-7890") /\ is_digit c = false).
  { exists 43%N. split; [by left | reflexivity]. }
  split; [apply reachable_world_connected|].
  split; [exact H|].
  split; [vm_compute; reflexivity|].
  exact (execute_key_verbatim engine_ok
           {| req_phone := js "+62 812-3456-7890"; req_target := Some (js "628999000111");
              req_code := Some code1; req_loop := Some 1; req_delay := None |}
           room0 world_connected reachable_world_connected H).
Defined.

(** ** Substrings and the name pattern *)

Lemma starts_with_prefix p s :
  starts_with p s = true <-> exists t, s = p ++ t.
Proof.
  revert s. induction p as [|a p IH]; intros s; cbn [starts_with].
  - split; [by exists s | done].
  - destruct s as [|b s].
    + split; [done | intros [t Ht]; discriminate].
    + rewrite andb_true_iff, N.eqb_eq, IH. split.
      * intros [-> [t ->]]. by exists t.
      * intros [t Ht]. injection Ht as -> ->. split; [done | by exists t].
Qed.

Lemma includes_infix s p :
  includes s p = true <-> exists pre post, s = pre ++ p ++ post.
Proof.
  induction s as [|c s IH]; cbn [includes]; rewrite orb_true_iff, starts_with_prefix.
  - split.
    + intros [[t Ht]|?]; [|done]. by exists [], t.
    + intros (pre & post & H). left. destruct pre; [by exists post|discriminate].
  - rewrite IH. split.
    + intros [[t Ht]|(pre & post & ->)]; [by exists [], t | by exists (c :: pre), post].
    + intros (pre & post & H). destruct pre as [|c' pre].
      * left. by exists post.
      * right. injection H as -> ->. by exists pre, post.
Qed.

Lemma take_while_split f s :
  s = take_while f s ++ drop (length (take_while f s)) s.
Proof.
  induction s as [|c s IH]; [done|]. cbn [take_while].
  destruct (f c); [|done]. cbn [length drop app]. by rewrite <- IH.
Qed.

Lemma take_while_all f s : Forall (fun c => f c = true) (take_while f s).
Proof.
  induction s as [|c s IH]; cbn [take_while]; [constructor|].
  destruct (f c) eqn:E; by constructor.
Qed.

Lemma take_while_stops f s :
  match drop (length (take_while f s)) s with
  | [] => True
  | c :: _ => f c = false
  end.
Proof.
  induction s as [|c s IH]; [done|]. cbn [take_while].
  destruct (f c) eqn:E; [exact IH | exact E].
Qed.

(** What a match of [/async function\s+(\w+)/] at the start of [s] is. *)
Lemma fn_match_here_sound s name :
  fn_match_here s = Some name ->
  exists spaces post,
    s = js "async function" ++ spaces ++ name ++ post
    /\ spaces <> [] /\ Forall (fun c => is_space c = true) spaces
    /\ name <> [] /\ Forall (fun c => is_word c = true) name
    /\ match post with [] => True | c :: _ => is_word c = false end.
Proof.
  unfold fn_match_here.
  destruct (starts_with (js "async function") s) eqn:Hs; [|done].
  apply starts_with_prefix in Hs as [rest ->].
  rewrite drop_app_length.
  set (spaces := take_while is_space rest).
  set (after := drop (length spaces) rest).
  intros H.
  destruct spaces as [|c spaces'] eqn:Hsp; [done|].
  destruct (take_while is_word after) as [|d name'] eqn:Hn; [done|].
  injection H as <-.
  exists (c :: spaces'), (drop (length (d :: name')) after).
  split; [|split; [done|split; [|split; [done|split]]]].
  - f_equal. rewrite <- Hn, <- take_while_split.
    unfold after. rewrite <- Hsp. apply take_while_split.
  - rewrite <- Hsp. apply take_while_all.
  - rewrite <- Hn. apply take_while_all.
  - rewrite <- Hn. apply take_while_stops.
Qed.

Lemma fn_match_sound code name :
  fn_match code = Some name ->
  exists pre spaces post,
    code = pre ++ js "async function" ++ spaces ++ name ++ post
    /\ spaces <> [] /\ Forall (fun c => is_space c = true) spaces
    /\ name <> [] /\ Forall (fun c => is_word c = true) name
    /\ match post with [] => True | c :: _ => is_word c = false end.
Proof.
  induction code as [|c code IH]; cbn [fn_match].
  - destruct (fn_match_here []) eqn:E; [|done].
    intros H. injection H as ->.
    destruct (fn_match_here_sound _ _ E) as (sp & post & H). by exists [], sp, post.
  - destruct (fn_match_here (c :: code)) eqn:E.
    + intros H. injection H as ->.
      destruct (fn_match_here_sound _ _ E) as (sp & post & H). by exists [], sp, post.
    + intros H. destruct (IH H) as (pre & sp & post & -> & Hrest).
      by exists (c :: pre), sp, post.
Qed.

Lemma word_not_space c : is_word c = true -> is_space c = false.
Proof.
  unfold is_word, is_digit, is_space. intros H.
  assert (Hc : (48 <= c <= 122)%N).
  { repeat (apply orb_true_iff in H as [H|H]).
    - apply andb_true_iff in H as [H1 H2]. apply N.leb_le in H1, H2. lia.
    - apply andb_true_iff in H as [H1 H2]. apply N.leb_le in H1, H2. lia.
    - apply andb_true_iff in H as [H1 H2]. apply N.leb_le in H1, H2. lia.
    - apply N.eqb_eq in H. lia. }
  repeat (apply orb_false_iff; split);
    try (apply N.eqb_neq; lia);
    apply andb_false_iff; (left; apply N.leb_gt; lia) || (right; apply N.leb_gt; lia).
Qed.

Lemma take_while_app_stop f s c rest :
  Forall (fun x => f x = true) s -> f c = false ->
  take_while f (s ++ c :: rest) = s.
Proof.
  intros Hs Hc. induction Hs as [|x s Hx _ IH]; cbn [app take_while].
  - by rewrite Hc.
  - by rewrite Hx, IH.
Qed.

Lemma fn_match_here_complete spaces c post :
  spaces <> [] -> Forall (fun x => is_space x = true) spaces -> is_word c = true ->
  is_Some (fn_match_here (js "async function" ++ spaces ++ c :: post)).
Proof.
  intros Hne Hsp Hc. unfold fn_match_here.
  assert (starts_with (js "async function") (js "async function" ++ spaces ++ c :: post)
          = true) as -> by (apply starts_with_prefix; by eexists).
  rewrite drop_app_length.
  rewrite (take_while_app_stop is_space spaces c post Hsp (word_not_space c Hc)).
  rewrite drop_app_length. cbn [take_while]. rewrite Hc.
  destruct spaces; [done | by eexists].
Qed.

Lemma fn_match_app pre s : is_Some (fn_match_here s) -> is_Some (fn_match (pre ++ s)).
Proof.
  intros [name Hs]. induction pre as [|a pre IH]; cbn [app].
  - destruct s; cbn [fn_match]; rewrite Hs; by eexists.
  - cbn [fn_match]. destruct (fn_match_here (a :: pre ++ s)); [by eexists | exact IH].
Qed.


(** ** The capability object *)

Lemma or_empty_default x : or_empty x = default [] x.
Proof. by destruct x as [[|c s]|]. Qed.

Lemma send_with_id_cases handle prefix to content :
  match handle with
  | Some t =>
      match transport_sendMessage t to content with
      | returns (res_key id) =>
          send_with_id handle prefix to content = returns (cap_sent id)
      | returns (res_nullish is_undefined) =>
          send_with_id handle prefix to content
          = throws {| message := prefix
                                 ++ js "Cannot read properties of undefined (reading 'key')";
                      statusCode := None |}
      | returns (res_nullish is_null) =>
          send_with_id handle prefix to content
          = throws {| message := prefix
                                 ++ js "Cannot read properties of null (reading 'key')";
                      statusCode := None |}
      | returns (res_key_nullish is_undefined) =>
          send_with_id handle prefix to content
          = throws {| message := prefix
                                 ++ js "Cannot read properties of undefined (reading 'id')";
                      statusCode := None |}
      | returns (res_key_nullish is_null) =>
          send_with_id handle prefix to content
          = throws {| message := prefix
                                 ++ js "Cannot read properties of null (reading 'id')";
                      statusCode := None |}
      | throws err =>
          send_with_id handle prefix to content
          = throws {| message := prefix ++ message err; statusCode := None |}
      end
  | None =>
      send_with_id handle prefix to content
      = throws {| message := prefix
                             ++ js "Cannot read properties of undefined (reading 'sendMessage')";
                  statusCode := None |}
  end.
Proof.
  unfold send_with_id. destruct handle as [t|]; [|reflexivity]. cbn [call_sendMessage].
  destruct (transport_sendMessage t to content) as [[[]|[]|id]|err]; reflexivity.
Qed.

(** C7. A call of one of the eight [send*] methods passes a content to the
    [sendMessage] of the transport handle. When the transport resolves to
    a value with a [key], the method returns [{ success: true, id }] with
    the [key.id] of that value. When the transport throws, the method
    throws an error that has no status code and nothing of the transport's
    error but its message: its message is the prefix of the method, which
    is not empty, followed by the message of the transport's error. When
    the transport resolves to a value without a [key], or when the session
    record holds no handle, the method throws such an error for the
    [TypeError] of the failed read. [getUserStatus] never throws: it
    returns the status object the lookup resolves to, and
    [{ status: 'unknown' }] when the lookup throws, resolves to a falsy
    value, or has no handle to ask. *)
Theorem capability_results handle c :
  send_family c = true ->
  (exists to content,
     content_of c = Some (to, content)
     /\ error_prefix c <> []
     /\ match handle with
        | Some t =>
            match transport_sendMessage t to content with
            | returns (res_key id) => capability handle c = returns (cap_sent id)
            | returns (res_nullish is_undefined) =>
                capability handle c
                = throws {| message :=
                              error_prefix c
                              ++ js "Cannot read properties of undefined (reading 'key')";
                            statusCode := None |}
            | returns (res_nullish is_null) =>
                capability handle c
                = throws {| message :=
                              error_prefix c
                              ++ js "Cannot read properties of null (reading 'key')";
                            statusCode := None |}
            | returns (res_key_nullish is_undefined) =>
                capability handle c
                = throws {| message :=
                              error_prefix c
                              ++ js "Cannot read properties of undefined (reading 'id')";
                            statusCode := None |}
            | returns (res_key_nullish is_null) =>
                capability handle c
                = throws {| message :=
                              error_prefix c
                              ++ js "Cannot read properties of null (reading 'id')";
                            statusCode := None |}
            | throws err =>
                capability handle c
                = throws {| message := error_prefix c ++ message err;
                            statusCode := None |}
            end
        | None =>
            capability handle c
            = throws {| message :=
                          error_prefix c
                          ++ js "Cannot read properties of undefined (reading 'sendMessage')";
                        statusCode := None |}
        end)
  /\ (forall jid,
        (exists info, capability handle (getUserStatus jid) = returns (cap_status info))
        /\ (forall t info, handle = Some t ->
              transport_fetchStatus t jid = returns (Some info) ->
              capability handle (getUserStatus jid) = returns (cap_status info))
        /\ (match handle with
            | Some t => match transport_fetchStatus t jid with
                        | returns (Some _) => False
                        | _ => True
                        end
            | None => True
            end ->
            capability handle (getUserStatus jid)
            = returns (cap_status {| status_text := js "unknown"; setAt := None |}))).
Proof.
  intros Hc. split.
  - destruct c; try discriminate Hc; cbn [content_of error_prefix capability];
      rewrite ?or_empty_default;
      do 2 eexists; (split; [reflexivity|]); (split; [discriminate|]);
      apply send_with_id_cases.
  - intros jid. cbn [capability]. destruct handle as [t|].
    + split; [|split].
      * destruct (transport_fetchStatus t jid) as [[info|]|err]; by eexists.
      * intros t' info Ht Hinfo. injection Ht as <-. by rewrite Hinfo.
      * destruct (transport_fetchStatus t jid) as [[info|]|err]; [intros []|done..].
    + split; [by eexists|]. split; [intros t info Ht; discriminate Ht | done].
Qed.

Lemma capability_results_witness :
  send_family (sendText (js "628999000111@s.whatsapp.net") (js "halo")) = true
  /\ send_family (sendImage (js "628999000111@s.whatsapp.net")
                    (js "https://example.org/a.png") None) = true
  /\ capability (Some transport_ok) (sendText (js "628999000111@s.whatsapp.net") (js "halo"))
     = returns (cap_sent (Some (js "3EB0A1B2C3")))
  /\ capability (Some transport_closed)
       (sendImage (js "628999000111@s.whatsapp.net") (js "https://example.org/a.png") None)
     = throws {| message := js "Gagal kirim gambar: Connection Closed"; statusCode := None |}
  /\ capability (Some transport_ok) (getUserStatus (js "628999000111@s.whatsapp.net"))
     = returns (cap_status {| status_text := js "unknown"; setAt := None |}).
Proof.
  split; [reflexivity|]. split; [reflexivity|].
  destruct (capability_results (Some transport_ok)
              (sendText (js "628999000111@s.whatsapp.net") (js "halo")) eq_refl)
    as [(to & content & Hcontent & _ & Hsend) Hstatus].
  destruct (capability_results (Some transport_closed)
              (sendImage (js "628999000111@s.whatsapp.net")
                 (js "https://example.org/a.png") None) eq_refl)
    as [(to' & content' & Hcontent' & _ & Hsend') _].
  split; [|split].
  - injection Hcontent as <- <-. exact Hsend.
  - injection Hcontent' as <- <-. exact Hsend'.
  - apply Hstatus. exact I.
Defined.

Example capability_error_is_wrapped :
  capability (Some transport_closed) (sendImage (js "628999000111@s.whatsapp.net")
                                        (js "https://example.org/a.png") None)
  = throws {| message := js "Gagal kirim gambar: Connection Closed"; statusCode := None |}
  /\ capability None (sendText (js "628999000111@s.whatsapp.net") (js "halo"))
     = throws (new_Error (js "Gagal kirim: Cannot read properties of undefined (reading 'sendMessage')")).
Proof. split; reflexivity. Qed.

Example react_and_delete_return_no_id :
  capability (Some transport_ok) (react (js "628999000111@s.whatsapp.net") (js "3EB0") (js "ok"))
  = returns cap_done
  /\ capability (Some transport_ok) (deleteMessage (js "628999000111@s.whatsapp.net") (js "3EB0"))
     = returns cap_done.
Proof. split; reflexivity. Qed.

(** ** The script-shape gate *)

(** C8, as amended. For a request against a connected session whose body
    has a target and a script text, the gate reads the text only. A text
    that lacks the substring [async function] or lacks the substring
    [sock, target] is answered 400 with the format error. A text that has
    both, but in which [async function] is nowhere followed by white space
    and a word code unit, is answered 400 with the name-not-found error,
    a different message. In both cases the world is left as it was: no
    [VM] is constructed and nothing is emitted. Every other text passes
    the gate, and a [VM] is constructed for it. *)
Theorem script_shape_gate engine req socket_id w target code :
  not_connected (connections w !! req_phone req) = false ->
  req_target req = Some target ->
  req_code req = Some code ->
  let has s := exists pre post, code = pre ++ s ++ post in
  let named :=
    exists pre spaces c post,
      code = pre ++ js "async function" ++ spaces ++ c :: post
      /\ spaces <> [] /\ Forall (fun x => is_space x = true) spaces
      /\ is_word c = true in
  let r := api_execute engine req socket_id w in
  ((~ has (js "async function") \/ ~ has (js "sock, target")) ->
     r = (Some {| http_status := 400;
                  body := v_obj [(js "success", v_bool false);
                                 (js "error",
                                  v_str (js "Format: async function nama(sock, target)"))] |},
          w))
  /\ (has (js "async function") -> has (js "sock, target") -> ~ named ->
      r = (Some {| http_status := 400;
                   body := v_obj [(js "success", v_bool false);
                                  (js "error",
                                   v_str (js "Nama function tidak ditemukan"))] |},
           w))
  /\ (has (js "async function") -> has (js "sock, target") -> named ->
      (exists fnName jid, pre_loop req w = inr (fnName, jid))
      /\ vms (snd r) = S (vms w))
  /\ js "Format: async function nama(sock, target)" <> js "Nama function tidak ditemukan".
Proof.
  intros Hconn Htarget Hcode has named r.
  assert (Hhas : forall s, includes code s = true <-> has s)
    by (intros s; apply includes_infix).
  assert (Hnamed : fn_match code = None <-> ~ named).
  { split.
    - intros Hnone (pre & spaces & c & post & -> & Hne & Hsp & Hc).
      destruct (fn_match_app pre _ (fn_match_here_complete spaces c post Hne Hsp Hc))
        as [name Hname]. congruence.
    - intros Hno. destruct (fn_match code) as [name|] eqn:E; [|done].
      destruct Hno.
      destruct (fn_match_sound _ _ E)
        as (pre & spaces & post & -> & Hne & Hsp & Hn & Hw & _).
      destruct name as [|c name]; [done|].
      exists pre, spaces, c, (name ++ post).
      split; [done|]. split; [done|]. split; [done|]. by inversion Hw. }
  unfold r, api_execute, pre_loop. rewrite Hconn, Htarget, Hcode.
  split; [|split; [|split; [|discriminate]]].
  - intros Hmissing.
    assert (negb (includes code (js "async function"))
            || negb (includes code (js "sock, target")) = true) as ->; [|done].
    apply orb_true_iff.
    destruct Hmissing as [H|H]; [left|right]; apply negb_true_iff;
      destruct (includes code _) eqn:E; try done; destruct H; by apply Hhas.
  - intros Ha Hs Hn. apply Hhas in Ha, Hs. apply Hnamed in Hn.
    by rewrite Ha, Hs, Hn.
  - intros Ha Hs Hn. apply Hhas in Ha, Hs. rewrite Ha, Hs. cbn [negb orb].
    destruct (fn_match code) as [name|] eqn:E.
    + split; [by eexists _, _ | done].
    + exfalso. by apply (proj1 Hnamed).
Qed.

Lemma script_shape_gate_witness :
  not_connected (connections world_connected !! phone0) = false
  /\ api_execute engine_ok (request (js "function kirim(sock, target) { }") 1) room0
       world_connected
     = (Some {| http_status := 400;
                body := v_obj [(js "success", v_bool false);
                               (js "error",
                                v_str (js "Format: async function nama(sock, target)"))] |},
        world_connected)
  /\ api_execute engine_ok
       (request (js "const kirim = async function(sock, target) { }") 1) room0
       world_connected
     = (Some {| http_status := 400;
                body := v_obj [(js "success", v_bool false);
                               (js "error", v_str (js "Nama function tidak ditemukan"))] |},
        world_connected).
Proof.
  assert (H : not_connected (connections world_connected !! phone0) = false)
    by (vm_compute; reflexivity).
  split; [exact H|]. split.
  - destruct (script_shape_gate engine_ok (request (js "function kirim(sock, target) { }") 1)
                room0 world_connected _ _ H eq_refl eq_refl) as (Hformat & _).
    apply Hformat. left. intros Hh. apply includes_infix in Hh.
    vm_compute in Hh. discriminate Hh.
  - destruct (script_shape_gate engine_ok
                (request (js "const kirim = async function(sock, target) { }") 1)
                room0 world_connected _ _ H eq_refl eq_refl) as (_ & Hname & _).
    apply Hname.
    + apply includes_infix. vm_compute. reflexivity.
    + apply includes_infix. vm_compute. reflexivity.
    + intros (pre & spaces & c & post & Hcode & Hne & Hsp & Hc).
      pose proof (fn_match_app pre _ (fn_match_here_complete spaces c post Hne Hsp Hc))
        as [name Hname']. rewrite <- Hcode in Hname'. vm_compute in Hname'.
      discriminate Hname'.
Defined.

(** C8, as stated, fails: a script whose only declaration has no parameter
    at all, and which mentions [sock, target] in a string, passes the gate:
    a [VM] is constructed, the script is run, and the request is answered
    200. *)
Lemma gate_accepts_script_without_parameters :
  let r := api_execute engine_text (request code_no_parameters 1) room0 world_connected in
  spec_has_declaration code_no_parameters = false
  /\ pre_loop (request code_no_parameters 1) world_connected
     = inr (js "kirim", js "628999000111@s.whatsapp.net")
  /\ (exists response, fst r = Some response /\ http_status response = 200
                       /\ map (field (js "success")) (results_of response)
                          = [Some (v_bool true)])
  /\ vms (snd r) = S (vms world_connected).
Proof.
  split; [vm_compute; reflexivity|]. split; [vm_compute; reflexivity|].
  split; [eexists; split; [vm_compute; reflexivity | split; reflexivity]|].
  vm_compute. reflexivity.
Qed.

(** ** The sandbox *)

(** The sandbox object binds exactly eight names. [sock] is the capability
    object with its eleven methods, [target] the target identity, [console]
    an object with the single method [log]; [Buffer], [setTimeout], [Date],
    [Math] and [JSON] are the host's. No other name is a key of the sandbox
    object, and none of the names the server module binds is. What a
    script can reach through these bindings is for vm2 to decide. *)
Lemma sandbox_bindings handle jid socket_id name :
  let sb := sandbox handle jid socket_id in
  (is_Some (sandbox_lookup name sb) <-> In name (spec_allowlist ++ [js "setTimeout"]))
  /\ (~ In name (spec_allowlist ++ [js "setTimeout"]) <-> sandbox_lookup name sb = None)
  /\ sandbox_lookup (js "sock") sb = Some (bind_capability handle sock_methods)
  /\ length sock_methods = 11%nat
  /\ sandbox_lookup (js "target") sb = Some (bind_target jid)
  /\ sandbox_lookup (js "console") sb = Some (bind_console socket_id [js "log"])
  /\ Forall (fun g => sandbox_lookup g sb = Some (bind_host g))
       [js "Buffer"; js "setTimeout"; js "Date"; js "Math"; js "JSON"]
  /\ Forall (fun g => sandbox_lookup g sb = None) ambient_names.
Proof.
  intros sb.
  assert (Hiff : is_Some (sandbox_lookup name sb)
                 <-> In name (spec_allowlist ++ [js "setTimeout"])).
  { unfold sb, sandbox. cbn [sandbox_lookup]. split.
    - repeat (case_decide; [subst name; cbn; tauto|]). by intros [? ?].
    - intros Hin. cbn in Hin.
      repeat (destruct Hin as [<-|Hin]; [vm_compute; by eexists|]). done. }
  split; [exact Hiff|]. split.
  { rewrite <- Hiff, <- eq_None_not_Some. done. }
  repeat (split; [reflexivity|]).
  split; repeat (apply Forall_cons_2; [reflexivity|]); apply Forall_nil_2.
Qed.

(** The sandbox binds [setTimeout], which is none of the capability
    object, the target, the logging primitive, the structured-data, time,
    math and byte-buffer utilities. *)
Lemma sandbox_exposes_setTimeout :
  ~ exposes_only_spec_allowlist (sandbox (Some 0%nat) (js "628999000111@s.whatsapp.net") room0).
Proof.
  intros H. specialize (H (js "setTimeout")).
  assert (Hin : In (js "setTimeout") spec_allowlist) by (apply H; vm_compute; by eexists).
  vm_compute in Hin. repeat (destruct Hin as [Hin|Hin]; [discriminate Hin|]). exact Hin.
Qed.

(** ** Further facts and examples *)

(** A request against a missing or not connected session is answered 400
    and changes nothing. *)
Lemma execute_requires_connected_session engine req socket_id w :
  not_connected (connections w !! req_phone req) = true ->
  api_execute engine req socket_id w
  = (Some (failure 400 (js "WhatsApp tidak terhubung")), w).
Proof. intros H. unfold api_execute, pre_loop. by rewrite H. Qed.

(** What an iteration records and reports depends on its own run only. *)
Lemma iteration_results_local run run' i :
  run i = run' i ->
  iteration_results run i = iteration_results run' i
  /\ forall socket_id,
       iteration_result_event run socket_id i = iteration_result_event run' socket_id i.
Proof.
  intros H. unfold iteration_results, iteration_result_event. by rewrite H.
Qed.

(** Three iterations of [code1], the second one failing:
    success, failure, success. *)
Example partial_failure_example :
  option_map (fun response => map (field (js "success")) (results_of response))
    (fst (api_execute engine_second_fails (request code1 3) room0 world_connected))
  = Some [Some (v_bool true); Some (v_bool false); Some (v_bool true)].
Proof. vm_compute. reflexivity. Qed.

(** The first pairing of a valid identifier makes one transport handle and
    records the session as connecting under the normalized key. *)
Example pairing_initiated_example :
  let r := api_pairing env0 (js "+62 812-3456-7890") room0 init in
  fst r = paired (js "Pairing initiated") phone0
  /\ connections (snd r) !! phone0
     = Some {| sock := Some 0%nat; saveCreds := Some phone0; status := connecting;
               socketId := room0; createdAt := Some 1000 |}
  /\ length (sockets (snd r)) = 1%nat.
Proof. vm_compute. repeat split; reflexivity. Qed.

(** The pairing code is sent in groups of four joined by dashes. *)
Example pairing_code_example :
  map payload (events_named (js "pairing_code") (emitted world_connected))
  = [v_obj [(js "code", v_str (js "ABCD-1234"))]].
Proof. vm_compute. reflexivity. Qed.

(** After a disconnect request the registry has no record for the key, and
    an execute request for it is refused. *)
Example disconnect_example :
  let w := snd (api_disconnect None phone0 world_connected) in
  connections w !! phone0 = None
  /\ fst (api_execute engine_ok (request code1 1) room0 w)
     = Some (failure 400 (js "WhatsApp tidak terhubung")).
Proof. vm_compute. split; reflexivity. Qed.

(** A [console.log] call outside the turns of a request emits one console
    event and changes nothing else. *)
Lemma deferred_log_step socket_id args w :
  step (DeferredLog socket_id args) w
  = {| connections := connections w; sockets := sockets w; timers := timers w;
       emitted := emitted w
                  ++ [{| room := socket_id; event := js "console";
                         payload := v_obj [(js "message",
                                            v_str (join (js " ") args))] |}];
       vms := vms w |}.
Proof. reflexivity. Qed.

(** A script that throws a string: the entry of the iteration has the
    [error] field, which holds [undefined]. *)
Example thrown_string_example :
  iteration_results
    (fun i => {| logs := []; outcome := run_rejects (thrown_value v_undefined);
                 startTime := 0; endTime := 0; delay_logs := [] |}) 1
  = [v_obj [(js "loop", v_num 1); (js "success", v_bool false);
            (js "error", v_undefined)]].
Proof. reflexivity. Qed.

(** * Further properties of the handlers *)

(** ** The script validator *)

(** X1. The name the validator extracts. When [code.match] finds a name,
    the script text is some prefix, then [async function], then one or
    more white-space code units, then the name, which is a non-empty run of
    word code units that the next code unit does not extend. It finds none
    exactly when [async function] is nowhere followed by white space and a
    word code unit. *)
Theorem fn_match_spec code :
  (forall name, fn_match code = Some name ->
     exists pre spaces post,
       code = pre ++ js "async function" ++ spaces ++ name ++ post
       /\ spaces <> [] /\ Forall (fun c => is_space c = true) spaces
       /\ name <> [] /\ Forall (fun c => is_word c = true) name
       /\ match post with [] => True | c :: _ => is_word c = false end)
  /\ (fn_match code = None <->
      ~ exists pre spaces c post,
          code = pre ++ js "async function" ++ spaces ++ c :: post
          /\ spaces <> [] /\ Forall (fun x => is_space x = true) spaces
          /\ is_word c = true).
Proof.
  split; [intros name; apply fn_match_sound|]. split.
  - intros Hnone (pre & spaces & c & post & -> & Hne & Hsp & Hc).
    destruct (fn_match_app pre _ (fn_match_here_complete spaces c post Hne Hsp Hc))
      as [name Hname]. congruence.
  - intros Hno. destruct (fn_match code) as [name|] eqn:E; [|done].
    destruct Hno.
    destruct (fn_match_sound _ _ E) as (pre & spaces & post & -> & Hne & Hsp & Hn & Hw & _).
    destruct name as [|c name]; [done|].
    exists pre, spaces, c, (name ++ post).
    split; [done|]. split; [done|]. split; [done|]. by inversion Hw.
Qed.

Lemma includes_app_r s p : includes (s ++ p) p = true.
Proof. apply includes_infix. exists s, []. by rewrite app_nil_r. Qed.


Lemma is_word_range c :
  is_word c = true ->
  (48 <= c <= 57 \/ 65 <= c <= 90 \/ 97 <= c <= 122 \/ c = 95)%N.
Proof.
  unfold is_word, is_digit. intros H.
  repeat (apply orb_true_iff in H as [H|H]).
  - apply andb_true_iff in H as [H1 H2]. apply N.leb_le in H1, H2. lia.
  - apply andb_true_iff in H as [H1 H2]. apply N.leb_le in H1, H2. lia.
  - apply andb_true_iff in H as [H1 H2]. apply N.leb_le in H1, H2. lia.
  - apply N.eqb_eq in H. lia.
Qed.

(** X2. What acceptance by the checks before the loop guarantees: the
    session record of the given key exists and is connected; the body has
    a target and a script text; the script text contains [sock, target];
    the entry point name stands in the text after [async function] and
    white space, is not extended by the code unit that follows it, and is
    a non-empty run of the code units of a digit, a letter of A-Z or a-z,
    or an underscore. Nothing makes its first code unit a letter: the name
    may start with a digit. *)
Theorem accepted_request req w fnName jid :
  pre_loop req w = inr (fnName, jid) ->
  (exists c, connections w !! req_phone req = Some c /\ status c = connected)
  /\ (exists target, req_target req = Some target)
  /\ (exists code,
        req_code req = Some code
        /\ (exists pre post, code = pre ++ js "sock, target" ++ post)
        /\ (exists pre spaces post,
              code = pre ++ js "async function" ++ spaces ++ fnName ++ post
              /\ spaces <> [] /\ Forall (fun c => is_space c = true) spaces
              /\ match post with [] => True | c :: _ => is_word c = false end))
  /\ fnName <> []
  /\ Forall (fun c => (48 <= c <= 57 \/ 65 <= c <= 90 \/ 97 <= c <= 122 \/ c = 95)%N)
       fnName.
Proof.
  unfold pre_loop. intros H.
  destruct (not_connected (connections w !! req_phone req)) eqn:Hconn; [done|].
  destruct (req_target req) as [target|]; [|done].
  destruct (req_code req) as [code|]; [|done].
  destruct (negb (includes code (js "async function"))
            || negb (includes code (js "sock, target"))) eqn:Hinc; [done|].
  apply orb_false_iff in Hinc as [_ Hst]. apply negb_false_iff in Hst.
  destruct (fn_match code) as [name|] eqn:Hfn; [|done].
  injection H as -> <-.
  destruct (fn_match_sound _ _ Hfn)
    as (pre & spaces & post & Hcode & Hne & Hsp & Hn & Hw & Hpost).
  split; [|split; [|split; [|split]]].
  - unfold not_connected in Hconn.
    destruct (connections w !! req_phone req) as [c|]; [|done].
    exists c. split; [done|]. by destruct (status c).
  - by eexists.
  - exists code. split; [done|]. split; [by apply includes_infix|].
    by exists pre, spaces, post.
  - done.
  - eapply Forall_impl; [exact Hw|]. intros c. apply is_word_range.
Qed.

Lemma accepted_request_witness :
  pre_loop (request code1 3) world_connected
    = inr (js "kirim", js "628999000111@s.whatsapp.net")
  /\ (exists c, connections world_connected !! phone0 = Some c /\ status c = connected)
  /\ pre_loop (request (js "async function 1(sock, target) { }") 1) world_connected
     = inr (js "1", js "628999000111@s.whatsapp.net")
  /\ Forall (fun c => (48 <= c <= 57 \/ 65 <= c <= 90 \/ 97 <= c <= 122 \/ c = 95)%N)
       (js "1").
Proof.
  assert (H : pre_loop (request code1 3) world_connected
              = inr (js "kirim", js "628999000111@s.whatsapp.net"))
    by (vm_compute; reflexivity).
  assert (H' : pre_loop (request (js "async function 1(sock, target) { }") 1)
                 world_connected
               = inr (js "1", js "628999000111@s.whatsapp.net"))
    by (vm_compute; reflexivity).
  split; [exact H|].
  destruct (accepted_request (request code1 3) world_connected _ _ H)
    as (Hc & _ & _ & _ & _).
  destruct (accepted_request _ world_connected _ _ H') as (_ & _ & _ & _ & Hw).
  split; [exact Hc|]. split; [exact H' | exact Hw].
Defined.

(** X3. The target is made a WhatsApp id once: the id the handler computes
    always contains [@s.whatsapp.net], is the target itself when the target
    contains it already and the target followed by it otherwise, and is
    left as it is when it is submitted as the target. *)
Theorem target_jid req w fnName jid :
  pre_loop req w = inr (fnName, jid) ->
  exists target,
    req_target req = Some target
    /\ includes jid (js "@s.whatsapp.net") = true
    /\ (includes target (js "@s.whatsapp.net") = true -> jid = target)
    /\ (includes target (js "@s.whatsapp.net") = false ->
        jid = target ++ js "@s.whatsapp.net")
    /\ pre_loop (with_target jid req) w = inr (fnName, jid).
Proof.
  unfold pre_loop. cbn [with_target req_phone req_target req_code].
  destruct (not_connected (connections w !! req_phone req)); [done|].
  destruct (req_target req) as [target|]; [|done].
  destruct (req_code req) as [code|]; [|done].
  destruct (negb (includes code (js "async function"))
            || negb (includes code (js "sock, target"))); [done|].
  destruct (fn_match code) as [name|]; [|done].
  intros H. injection H as -> <-. exists target. split; [done|].
  destruct (includes target (js "@s.whatsapp.net")) eqn:Hinc.
  - rewrite Hinc. by repeat split.
  - rewrite includes_app_r. by repeat split.
Qed.

Lemma target_jid_witness :
  pre_loop (request code1 3) world_connected
    = inr (js "kirim", js "628999000111@s.whatsapp.net")
  /\ includes (js "628999000111@s.whatsapp.net") (js "@s.whatsapp.net") = true
  /\ pre_loop (with_target (js "628999000111@s.whatsapp.net") (request code1 3))
       world_connected
     = inr (js "kirim", js "628999000111@s.whatsapp.net").
Proof.
  assert (H : pre_loop (request code1 3) world_connected
              = inr (js "kirim", js "628999000111@s.whatsapp.net"))
    by (vm_compute; reflexivity).
  split; [exact H|].
  destruct (target_jid (request code1 3) world_connected _ _ H)
    as (target & _ & Hi & _ & _ & Hp).
  split; [exact Hi | exact Hp].
Defined.

(** ** Pairing *)

(** X4. A pairing request depends on the identifier through its digits
    only: two identifiers with the same digits, however formatted, get the
    same response and leave the same world. *)
Theorem pairing_ignores_formatting env phone1 phone2 socket_id w :
  strip_non_digits phone1 = strip_non_digits phone2 ->
  api_pairing env phone1 socket_id w = api_pairing env phone2 socket_id w.
Proof. intros H. unfold api_pairing. by rewrite H. Qed.

Lemma pairing_ignores_formatting_witness :
  strip_non_digits (js "+62 812-3456-7890") = strip_non_digits (js "(62) 8123 4567 890")
  /\ api_pairing env0 (js "+62 812-3456-7890") room0 init
     = api_pairing env0 (js "(62) 8123 4567 890") room0 init.
Proof.
  assert (H : strip_non_digits (js "+62 812-3456-7890")
              = strip_non_digits (js "(62) 8123 4567 890")) by reflexivity.
  split; [exact H|].
  exact (pairing_ignores_formatting env0 _ _ room0 init H).
Defined.

Lemma world_with_more_sockets w c t e v x :
  {| connections := c; sockets := sockets w ++ [x]; timers := t; emitted := e; vms := v |} <> w.
Proof.
  intros H. apply (f_equal (fun w => length (sockets w))) in H.
  cbn [sockets] in H. rewrite length_app in H. cbn in H. lia.
Qed.

(** X5. What a pairing request can change. It never touches the record of
    another key, never removes, ends or alters a transport handle made
    before, and changes neither the pending timers nor the events emitted.
    It changes the world exactly when it answers [Pairing initiated]; then
    one transport handle has been added, and the record of the normalized
    key is a fresh [connecting] record holding that handle, the caller's
    room and the time of the request, whatever record the key had. *)
Theorem pairing_effects env phone socket_id w :
  let r := api_pairing env phone socket_id w in
  let k := strip_non_digits phone in
  (forall k', k' <> k -> connections (snd r) !! k' = connections w !! k')
  /\ sockets w `prefix_of` sockets (snd r)
  /\ timers (snd r) = timers w
  /\ emitted (snd r) = emitted w
  /\ vms (snd r) = vms w
  /\ (snd r <> w <-> fst r = paired (js "Pairing initiated") k)
  /\ (fst r = paired (js "Pairing initiated") k ->
      sockets (snd r)
      = sockets w ++ [{| for_phone := k; for_room := socket_id;
                         ended := false; closed := false |}]
      /\ connections (snd r) !! k
         = Some {| sock := Some (length (sockets w)); saveCreds := Some k;
                   status := connecting; socketId := socket_id;
                   createdAt := Some (now env) |}).
Proof.
  intros r k. unfold r, api_pairing. fold k.
  assert (Hsame : forall resp : Response,
            resp <> paired (js "Pairing initiated") k ->
            let r := (resp, w) in
            (forall k', k' <> k -> connections (snd r) !! k' = connections w !! k')
            /\ sockets w `prefix_of` sockets (snd r)
            /\ timers (snd r) = timers w
            /\ emitted (snd r) = emitted w
            /\ vms (snd r) = vms w
            /\ (snd r <> w <-> fst r = paired (js "Pairing initiated") k)
            /\ (fst r = paired (js "Pairing initiated") k ->
                sockets (snd r)
                = sockets w ++ [{| for_phone := k; for_room := socket_id;
                                   ended := false; closed := false |}]
                /\ connections (snd r) !! k
                   = Some {| sock := Some (length (sockets w)); saveCreds := Some k;
                             status := connecting; socketId := socket_id;
                             createdAt := Some (now env) |})).
  { intros resp Hresp. cbn [fst snd].
    do 5 (split; [done|]).
    split; [split; [done | intros H; by destruct Hresp]|].
    intros H. by destruct Hresp. }
  destruct (_ || _)%bool; [apply Hsame; discriminate|].
  destruct (already_connected k w); [apply Hsame|].
  { unfold paired. intros H. injection H as H. vm_compute in H. discriminate. }
  destruct (auth_fault env); [apply Hsame; discriminate|].
  destruct (socket_fault env); [apply Hsame; discriminate|].
  cbn [fst snd set_connections set_sockets connections sockets timers emitted vms].
  split; [intros k' Hk'; by rewrite lookup_insert_ne|].
  split; [by eexists|].
  do 3 (split; [done|]).
  split; [split; [done | intros _; apply world_with_more_sockets]|].
  intros _. split; [done | by rewrite lookup_insert_eq].
Qed.

(** ** The listeners of a transport handle *)

Lemma mark_closed_lookup h h' w s' :
  sockets w !! h' = Some s' ->
  exists s'', sockets (mark_closed h w) !! h' = Some s''
              /\ for_phone s'' = for_phone s' /\ for_room s'' = for_room s'
              /\ ended s'' = ended s'
              /\ closed s'' = (if decide (h = h') then true else closed s').
Proof.
  intros Hh'. unfold mark_closed.
  destruct (sockets w !! h) as [s|] eqn:Hh.
  - cbn [set_sockets sockets]. destruct (decide (h = h')) as [->|Hne].
    + rewrite list_lookup_insert_eq by (by eapply lookup_lt_Some).
      eexists. split; [done|]. cbn. rewrite Hh in Hh'. by injection Hh' as ->.
    + rewrite list_lookup_insert_ne by done. by exists s'.
  - destruct (decide (h = h')) as [->|Hne]; [congruence|]. by exists s'.
Qed.

Lemma close_update_world h s reason w :
  sockets w !! h = Some s ->
  let w1 := on_connection_update h (upd_close reason) w in
  connections w1
  = <[for_phone s := with_status (connections w !! for_phone s) disconnected]> (connections w)
  /\ sockets w1 = sockets (mark_closed h w)
  /\ timers w1 = timers w ++ [for_phone s]
  /\ emitted w1
     = emitted w ++ [{| room := for_room s; event := js "status";
                        payload := v_obj [(js "status", v_str (js "disconnected"));
                                          (js "reason", opt_str reason)] |}]
  /\ vms w1 = vms w.
Proof.
  intros Hh. unfold on_connection_update. rewrite Hh.
  cbn [set_timers set_connections emit connections sockets timers emitted vms].
  rewrite mark_closed_connections, mark_closed_timers.
  unfold mark_closed. rewrite Hh. done.
Qed.

Lemma status_with_status o s : status (with_status o s) = s.
Proof. by destruct o. Qed.

(** X6. When a transport handle reports ['open'], the record of the key
    its listener closes over becomes [connected], whichever handle that
    record holds: a record that exists keeps its other fields, and a key
    without record gets a record with nothing but the status. No other
    record, no handle and no timer changes. A status event, followed by a
    pairing-code event when a code with at least one group was obtained,
    goes to the room the listener closes over. *)
Theorem open_marks_connected h s pairingCode w :
  sockets w !! h = Some s ->
  let k := for_phone s in
  let w' := on_connection_update h (upd_open pairingCode) w in
  (exists c', connections w' !! k = Some c' /\ status c' = connected
     /\ match connections w !! k with
        | Some c => sock c' = sock c /\ saveCreds c' = saveCreds c
                    /\ socketId c' = socketId c /\ createdAt c' = createdAt c
        | None => c' = bare connected
        end)
  /\ (forall k', k' <> k -> connections w' !! k' = connections w !! k')
  /\ sockets w' = sockets w /\ timers w' = timers w /\ vms w' = vms w
  /\ emitted w `prefix_of` emitted w'
  /\ map (fun e => (room e, event e)) (new_events w w')
     = (for_room s, js "status")
       :: match pairingCode with
          | returns code =>
              match groups_of_4 code [] with
              | [] => []
              | _ :: _ => [(for_room s, js "pairing_code")]
              end
          | throws _ => []
          end.
Proof.
  intros Hh k w'. unfold w', on_connection_update. rewrite Hh. fold k.
  assert (Hrec : exists c',
             (<[k := with_status (connections w !! k) connected]> (connections w)) !! k
             = Some c' /\ status c' = connected
             /\ match connections w !! k with
                | Some c => sock c' = sock c /\ saveCreds c' = saveCreds c
                            /\ socketId c' = socketId c /\ createdAt c' = createdAt c
                | None => c' = bare connected
                end).
  { eexists. split; [apply lookup_insert_eq|]. split; [apply status_with_status|].
    by destruct (connections w !! k). }
  assert (Hother : forall k', k' <> k ->
             (<[k := with_status (connections w !! k) connected]> (connections w)) !! k'
             = connections w !! k').
  { intros k' Hk'. by rewrite lookup_insert_ne. }
  destruct pairingCode as [code|err]; [destruct (groups_of_4 code []) as [|g gs]|];
    cbn [emit set_connections connections sockets timers emitted vms];
    (split; [exact Hrec|]); (split; [exact Hother|]);
    do 3 (split; [done|]); (split; [rewrite <- ?app_assoc; by eexists|]);
    unfold new_events, emit, set_connections; cbn [emitted];
    rewrite <- ?app_assoc, drop_app_length; done.
Qed.

Lemma open_marks_connected_witness :
  sockets world_paired_twice !! 0%nat
    = Some {| for_phone := phone0; for_room := room0; ended := false; closed := false |}
  /\ (exists c', connections (on_connection_update 0 (upd_open (throws (new_Error [])))
                               world_paired_twice) !! phone0 = Some c'
                 /\ status c' = connected /\ sock c' = Some 1%nat).
Proof.
  assert (H : sockets world_paired_twice !! 0%nat
              = Some {| for_phone := phone0; for_room := room0;
                        ended := false; closed := false |}) by reflexivity.
  split; [exact H|].
  destruct (open_marks_connected 0 _ (throws (new_Error [])) world_paired_twice H)
    as ((c' & Hc' & Hst & Hrest) & _).
  exists c'. split; [exact Hc'|]. split; [exact Hst|].
  change (connections world_paired_twice !! phone0) with
    (Some {| sock := Some 1%nat; saveCreds := Some phone0; status := connecting;
             socketId := room0; createdAt := Some 1000 |}) in Hrest.
  destruct Hrest as (Hsock & _). exact Hsock.
Defined.

Lemma lookup_timers_app_length {A} (l : list A) x : (l ++ [x]) !! length l = Some x.
Proof. rewrite lookup_app_r by lia. by rewrite Nat.sub_diag. Qed.

Lemma delete_app_length {A} (l : list A) x : delete (length l) (l ++ [x]) = l.
Proof.
  induction l as [|a l IH]; [done|]. simpl. f_equal. exact IH.
Qed.

Lemma delete_ge_id {A} (l : list A) n : (length l <= n)%nat -> delete n l = l.
Proof.
  revert n. induction l as [|a l IH]; intros n Hn; [by destruct n|].
  destruct n as [|n]; [cbn in Hn; lia|]. simpl. f_equal. apply IH. cbn in Hn. lia.
Qed.

(** X7. When a transport handle reports ['close'], the record of its key
    becomes [disconnected], the handle is no longer live, a status event
    with the reason goes to the listener's room, and one clean-up timer
    for the key is scheduled behind the pending ones. If that timer fires
    with nothing in between, the record of the key is removed and every
    other record and pending timer is as before the close. *)
Theorem close_then_cleanup h s reason w :
  sockets w !! h = Some s ->
  let k := for_phone s in
  let w1 := on_connection_update h (upd_close reason) w in
  let w2 := on_cleanup_timer (length (timers w)) w1 in
  (exists c, connections w1 !! k = Some c /\ status c = disconnected)
  /\ (exists s1, sockets w1 !! h = Some s1 /\ live s1 = false)
  /\ timers w1 = timers w ++ [k]
  /\ new_events w w1
     = [{| room := for_room s; event := js "status";
           payload := v_obj [(js "status", v_str (js "disconnected"));
                             (js "reason", opt_str reason)] |}]
  /\ connections w2 !! k = None
  /\ (forall k', k' <> k -> connections w2 !! k' = connections w !! k')
  /\ timers w2 = timers w.
Proof.
  intros Hh k w1 w2.
  destruct (close_update_world h s reason w Hh) as (Hc & Hs & Ht & He & _).
  fold w1 k in Hc, Hs, Ht, He.
  assert (Hk : connections w1 !! k = Some (with_status (connections w !! k) disconnected)).
  { rewrite Hc. apply lookup_insert_eq. }
  split; [eexists; split; [exact Hk | apply status_with_status]|].
  split.
  { destruct (mark_closed_lookup h h w s Hh) as (s1 & H1 & _ & _ & _ & Hcl).
    exists s1. rewrite Hs. split; [done|].
    rewrite decide_True in Hcl by done. unfold live. rewrite Hcl. apply andb_false_r. }
  split; [done|].
  split; [unfold new_events; rewrite He; apply drop_app_length|].
  assert (Hw2 : connections w2 = delete k (connections w1) /\ timers w2 = timers w).
  { unfold w2, on_cleanup_timer. rewrite Ht, lookup_timers_app_length.
    cbn [set_timers connections]. rewrite Hk, status_with_status, delete_app_length. done. }
  destruct Hw2 as [Hd Ht2]. rewrite Hd.
  split; [apply lookup_delete_eq|].
  split; [|done].
  intros k' Hk'. rewrite lookup_delete_ne by done. rewrite Hc. by rewrite lookup_insert_ne.
Qed.

Lemma close_then_cleanup_witness :
  sockets world_connected !! 0%nat
    = Some {| for_phone := phone0; for_room := room0; ended := false; closed := false |}
  /\ connections (on_cleanup_timer 0
                    (on_connection_update 0 (upd_close (Some (js "Connection Closed")))
                       world_connected)) !! phone0 = None.
Proof.
  assert (H : sockets world_connected !! 0%nat
              = Some {| for_phone := phone0; for_room := room0;
                        ended := false; closed := false |}) by reflexivity.
  split; [exact H|].
  destruct (close_then_cleanup 0 _ (Some (js "Connection Closed")) world_connected H)
    as (_ & _ & _ & _ & Hgone & _).
  exact Hgone.
Defined.

(** X8. A clean-up timer removes nothing but a record that is
    [disconnected] when it fires, and only the record of its own key: a
    [connecting] or [connected] record survives every timer, whatever
    scheduled it; handles, events and the other timers are untouched; a
    timer that is not pending does nothing. *)
Theorem cleanup_timer_effects n w :
  let w' := on_cleanup_timer n w in
  (forall k c, connections w !! k = Some c -> status c <> disconnected ->
               connections w' !! k = Some c)
  /\ (forall k, connections w' !! k <> connections w !! k ->
                timers w !! n = Some k /\ connections w' !! k = None)
  /\ sockets w' = sockets w /\ emitted w' = emitted w /\ vms w' = vms w
  /\ timers w' = delete n (timers w)
  /\ (timers w !! n = None -> w' = w).
Proof.
  intros w'. unfold w', on_cleanup_timer.
  destruct (timers w !! n) as [key|] eqn:Hn.
  - cbn [set_timers connections].
    destruct (connections w !! key) as [c0|] eqn:Hkey.
    + destruct (status c0) eqn:Hst;
        cbn [set_connections set_timers connections sockets timers emitted vms];
        (split; [|split; [|by repeat split]]); try done.
      * intros k c Hk Hnd. rewrite lookup_delete_ne; [done|].
        intros <-. rewrite Hkey in Hk. injection Hk as <-. done.
      * intros k Hk. destruct (decide (key = k)) as [<-|Hne].
        -- split; [done | apply lookup_delete_eq].
        -- by rewrite lookup_delete_ne in Hk.
    + cbn [set_timers connections sockets timers emitted vms]. by repeat split.
  - split; [done|]. split; [done|]. do 3 (split; [done|]).
    split; [|done]. symmetry. apply delete_ge_id. by apply lookup_ge_None.
Qed.

(** X9. A reconnection cancels the clean-up: if a handle of the same key
    reports ['open'] after the ['close'] and before the timer of that
    close fires, the timer leaves the registry as it is and the record
    stays [connected]. *)
Theorem reconnect_cancels_cleanup h s h' s' reason pairingCode w :
  sockets w !! h = Some s ->
  sockets w !! h' = Some s' ->
  for_phone s' = for_phone s ->
  let k := for_phone s in
  let w1 := on_connection_update h (upd_close reason) w in
  let w2 := on_connection_update h' (upd_open pairingCode) w1 in
  let w3 := on_cleanup_timer (length (timers w)) w2 in
  connections w3 = connections w2
  /\ (exists c, connections w3 !! k = Some c /\ status c = connected)
  /\ timers w3 = timers w.
Proof.
  intros Hh Hh' Hkey k w1 w2 w3.
  destruct (close_update_world h s reason w Hh) as (_ & Hs & Ht & _).
  fold w1 k in Hs, Ht.
  destruct (mark_closed_lookup h h' w s' Hh') as (s1 & H1 & Hp1 & _).
  rewrite <- Hs in H1.
  assert (Hk1 : for_phone s1 = k) by (rewrite Hp1; exact Hkey).
  assert (Hw2 : connections w2 !! k = Some (with_status (connections w1 !! k) connected)
                /\ timers w2 = timers w1).
  { unfold w2, on_connection_update. rewrite H1, Hk1.
    destruct pairingCode as [code|err]; [destruct (groups_of_4 code [])|];
      cbn [emit set_connections connections timers]; by rewrite lookup_insert_eq. }
  destruct Hw2 as [Hk2 Ht2].
  assert (Hw3 : connections w3 = connections w2 /\ timers w3 = timers w).
  { unfold w3, on_cleanup_timer. rewrite Ht2, Ht, lookup_timers_app_length.
    cbn [set_timers connections]. rewrite Hk2, status_with_status.
    cbn [set_timers timers]. by rewrite delete_app_length. }
  destruct Hw3 as [Hc3 Ht3].
  split; [done|]. split; [|done].
  rewrite Hc3. eexists. split; [exact Hk2 | apply status_with_status].
Qed.

Lemma reconnect_cancels_cleanup_witness :
  sockets world_connected !! 0%nat
    = Some {| for_phone := phone0; for_room := room0; ended := false; closed := false |}
  /\ (exists c,
        connections
          (on_cleanup_timer 0
             (on_connection_update 0 (upd_open (throws (new_Error [])))
                (on_connection_update 0 (upd_close None) world_connected))) !! phone0
        = Some c /\ status c = connected).
Proof.
  assert (H : sockets world_connected !! 0%nat
              = Some {| for_phone := phone0; for_room := room0;
                        ended := false; closed := false |}) by reflexivity.
  split; [exact H|].
  destruct (reconnect_cancels_cleanup 0 _ 0 _ None (throws (new_Error []))
              world_connected H H eq_refl) as (_ & Hc & _).
  exact Hc.
Defined.

(** ** [POST /api/disconnect] *)

Lemma mark_ended_lookup h h' w s' :
  sockets w !! h' = Some s' ->
  exists s'', sockets (mark_ended h w) !! h' = Some s''
              /\ for_phone s'' = for_phone s' /\ for_room s'' = for_room s'
              /\ closed s'' = closed s'
              /\ ended s'' = (if decide (h = h') then true else ended s').
Proof.
  intros Hh'. unfold mark_ended.
  destruct (sockets w !! h) as [s|] eqn:Hh.
  - cbn [set_sockets sockets]. destruct (decide (h = h')) as [->|Hne].
    + rewrite list_lookup_insert_eq by (by eapply lookup_lt_Some).
      eexists. split; [done|]. cbn. rewrite Hh in Hh'. by injection Hh' as ->.
    + rewrite list_lookup_insert_ne by done. by exists s'.
  - destruct (decide (h = h')) as [->|Hne]; [congruence|]. by exists s'.
Qed.

Lemma mark_ended_frame h w :
  connections (mark_ended h w) = connections w
  /\ timers (mark_ended h w) = timers w
  /\ emitted (mark_ended h w) = emitted w
  /\ vms (mark_ended h w) = vms w
  /\ length (sockets (mark_ended h w)) = length (sockets w).
Proof.
  unfold mark_ended. destruct (sockets w !! h); [|done].
  cbn [set_sockets connections sockets timers emitted vms].
  by rewrite length_insert.
Qed.

(** X10. A disconnect request touches no other record, no timer and no
    event, and makes or removes no handle. When the record of the key
    holds a handle, [end()] is called on it: if that returns, the handle
    is ended, the record is removed and the answer is 200
    [{ success: true }]; if it throws, the answer is 500 with the message
    of the error, and the world, the record included, is left as it is.
    When the record holds no handle (a record rebuilt by a listener), or
    when there is no record, the answer is 200 and the world is left as it
    is. A request that was answered 200 can be repeated with the same
    answer and no further effect. *)
Theorem disconnect_effects end_fault phone w :
  let r := api_disconnect end_fault phone w in
  let ok := {| http_status := 200; body := v_obj [(js "success", v_bool true)] |} in
  (forall k', k' <> phone -> connections (snd r) !! k' = connections w !! k')
  /\ timers (snd r) = timers w /\ emitted (snd r) = emitted w /\ vms (snd r) = vms w
  /\ length (sockets (snd r)) = length (sockets w)
  /\ (forall c h, connections w !! phone = Some c -> sock c = Some h ->
        match end_fault with
        | None =>
            fst r = ok
            /\ connections (snd r) !! phone = None
            /\ forall s, sockets w !! h = Some s ->
                 exists s', sockets (snd r) !! h = Some s'
                            /\ live s' = false /\ for_phone s' = for_phone s
        | Some error =>
            r = ({| http_status := 500;
                    body := v_obj [(js "success", v_bool false);
                                   (js "error", v_str (message error))] |}, w)
        end)
  /\ (forall c, connections w !! phone = Some c -> sock c = None -> r = (ok, w))
  /\ (connections w !! phone = None -> r = (ok, w))
  /\ (fst r = ok -> forall end_fault', api_disconnect end_fault' phone (snd r) = r).
Proof.
  intros r ok. unfold r, api_disconnect. fold ok.
  destruct (connections w !! phone) as [c|] eqn:Hc.
  - destruct (sock c) as [h|] eqn:Hs.
    + destruct end_fault as [error|].
      * cbn [fst snd]. do 5 (split; [done|]). split; [|split; [congruence|]].
        { intros c' h' Hc' Hh'. done. }
        split; [done|]. intros Hok. discriminate Hok.
      * destruct (mark_ended_frame h w) as (Fc & Ft & Fe & Fv & Fl).
        cbn [fst snd set_connections connections sockets timers emitted vms].
        split; [intros k' Hk'; by rewrite lookup_delete_ne, Fc|].
        do 4 (split; [done|]).
        split; [|split; [congruence|split; [done|]]].
        { intros c' h' Hc' Hh'. injection Hc' as <-. rewrite Hs in Hh'.
          injection Hh' as <-.
          split; [done|]. split; [apply lookup_delete_eq|].
          intros s Hsock.
          destruct (mark_ended_lookup h h w s Hsock) as (s' & H1 & Hp & _ & _ & He).
          exists s'. split; [done|]. split; [|done].
          rewrite decide_True in He by done. unfold live. by rewrite He. }
        intros _ end_fault'. unfold api_disconnect.
        cbn [connections set_connections]. by rewrite lookup_delete_eq.
    + cbn [fst snd]. do 5 (split; [done|]).
      split; [intros c' h' Hc' Hh'; injection Hc' as <-; congruence|].
      do 2 (split; [done|]).
      intros _ end_fault'. unfold api_disconnect. by rewrite Hc, Hs.
  - cbn [fst snd]. do 5 (split; [done|]).
    split; [intros c' h' Hc'; discriminate|]. do 2 (split; [done|]).
    intros _ end_fault'. unfold api_disconnect. by rewrite Hc.
Qed.

(** X11. After a disconnect request for a key whose record, if any, holds
    a handle on which [end()] returns, an execute request for that key is
    answered 400 with the not-connected error and changes nothing. When
    [end()] throws instead, the world is as it was before the disconnect
    request, and so is the answer to an execute request. *)
Theorem execute_after_disconnect engine req socket_id w end_fault :
  (forall c, connections w !! req_phone req = Some c -> is_Some (sock c)) ->
  let w' := snd (api_disconnect end_fault (req_phone req) w) in
  match end_fault with
  | None =>
      api_execute engine req socket_id w'
      = (Some {| http_status := 400;
                 body := v_obj [(js "success", v_bool false);
                                (js "error", v_str (js "WhatsApp tidak terhubung"))] |},
         w')
  | Some _ =>
      is_Some (connections w !! req_phone req) ->
      w' = w
      /\ api_execute engine req socket_id w' = api_execute engine req socket_id w
  end.
Proof.
  intros Hsock w'. destruct end_fault as [error|].
  - intros [c Hc]. destruct (Hsock c Hc) as [h Hh].
    assert (Hw : w' = w) by (unfold w', api_disconnect; by rewrite Hc, Hh).
    by rewrite Hw.
  - apply execute_requires_connected_session.
    unfold w', api_disconnect.
    destruct (connections w !! req_phone req) as [c|] eqn:Hc.
    + destruct (Hsock c eq_refl) as [h ->].
      cbn [snd set_connections connections]. by rewrite lookup_delete_eq.
    + cbn [snd]. by rewrite Hc.
Qed.

Lemma execute_after_disconnect_witness :
  (forall c, connections world_connected !! req_phone (request code1 1) = Some c ->
             is_Some (sock c))
  /\ api_execute engine_ok (request code1 1) room0
       (snd (api_disconnect None phone0 world_connected))
     = (Some {| http_status := 400;
                body := v_obj [(js "success", v_bool false);
                               (js "error", v_str (js "WhatsApp tidak terhubung"))] |},
        snd (api_disconnect None phone0 world_connected))
  /\ snd (api_disconnect (Some (new_Error (js "Connection Closed"))) phone0 world_connected)
     = world_connected.
Proof.
  assert (H : forall c, connections world_connected !! req_phone (request code1 1) = Some c ->
                        is_Some (sock c)).
  { intros c Hc. vm_compute in Hc. injection Hc as <-. by eexists. }
  split; [exact H|]. split.
  - exact (execute_after_disconnect engine_ok (request code1 1) room0 world_connected
             None H).
  - apply (execute_after_disconnect engine_ok (request code1 1) room0 world_connected
             (Some (new_Error (js "Connection Closed"))) H).
    vm_compute. by eexists.
Defined.

(** X12. A record without handle survives a disconnect request: when the
    record of the key is [connected] and holds no handle (as a listener
    rebuilds it after the record was removed), a disconnect request leaves
    the world as it is, and an execute request for the key still passes
    the session check, its capability object bound to no handle. *)
Theorem bare_record_survives_disconnect end_fault req w c :
  connections w !! req_phone req = Some c ->
  sock c = None ->
  status c = connected ->
  let w' := snd (api_disconnect end_fault (req_phone req) w) in
  w' = w
  /\ not_connected (connections w' !! req_phone req) = false
  /\ handle_of (connections w' !! req_phone req) = None.
Proof.
  intros Hc Hs Hst w'.
  assert (Hw : w' = w) by (unfold w', api_disconnect; by rewrite Hc, Hs).
  rewrite Hw. split; [done|]. unfold not_connected, handle_of. by rewrite Hc, Hst, Hs.
Qed.

Lemma bare_record_survives_disconnect_witness :
  reachable world_resurrected
  /\ connections world_resurrected !! req_phone (request code1 1) = Some (bare connected)
  /\ snd (api_disconnect None phone0 world_resurrected) = world_resurrected
  /\ option_map http_status
       (fst (api_execute engine_ok (request code1 1) room0
               (snd (api_disconnect None phone0 world_resurrected)))) = Some 200.
Proof.
  assert (H : connections world_resurrected !! req_phone (request code1 1)
              = Some (bare connected)) by (vm_compute; reflexivity).
  split; [apply reachable_run_actions, reachable_init|].
  split; [exact H|].
  destruct (bare_record_survives_disconnect None (request code1 1) world_resurrected _ H
              eq_refl eq_refl) as (Hw & _ & _).
  split; [exact Hw|]. vm_compute. reflexivity.
Defined.

(** ** [POST /api/execute]: effects, rooms and order of events *)

Lemma iteration_result_event_cases run socket_id i :
  match iteration_flow run i with
  | proceeds =>
      exists e, iteration_result_event run socket_id i = [e]
                /\ room e = socket_id /\ event e = js "result"
                /\ event_iteration e = Some (v_num i)
  | _ => iteration_result_event run socket_id i = []
  end.
Proof.
  unfold iteration_flow, iteration_result_event.
  destruct (outcome (run i)) as [result|err|]; [| |done].
  - destruct (result_summary result); by eexists.
  - destruct (message_of err); [by eexists | done].
Qed.

Lemma result_event_room run socket_id i :
  iteration_flow run i = proceeds ->
  map (fun e => (room e, field (js "loop") (payload e)))
      (iteration_result_event run socket_id i)
  = [(socket_id, Some (v_num i))].
Proof.
  unfold iteration_flow, iteration_result_event.
  destruct (outcome (run i)) as [result|err|]; [| |done].
  - intros _. by destruct (result_summary result).
  - by destruct (message_of err).
Qed.










Lemma console_of_iteration run socket_id loop i :
  iteration_flow run i = proceeds ->
  events_named (js "console") (iteration_events run socket_id loop i)
  = map (console_event socket_id)
      (logs (run i) ++ if i <? loop then delay_logs (run i) else []).
Proof.
  intros Hi.
  assert (Hc : forall l, events_named (js "console") (map (console_event socket_id) l)
                         = map (console_event socket_id) l).
  { induction l as [|args l IH]; [done|]. cbn [map].
    change (events_named (js "console") (?e :: ?l))
      with (if bool_decide (event e = js "console")
            then e :: events_named (js "console") l
            else events_named (js "console") l).
    cbn [console_event event]. by rewrite IH. }
  unfold iteration_events, iteration_delay_events. rewrite Hi.
  change (progress_event socket_id i loop :: ?l) with ([progress_event socket_id i loop] ++ l).
  rewrite !events_named_app.
  assert (events_named (js "console") [progress_event socket_id i loop] = []) as ->
    by reflexivity.
  rewrite (result_events_not_named (js "console")) by done.
  rewrite Hc, map_app. cbn [app]. f_equal.
  destruct (i <? loop); [apply Hc | done].
Qed.



(** X16. For a request that is answered 200, the console events the
    handler's request emits are, iteration after iteration, one event for
    every [console.log] call made while the handler awaits the run, and
    then, unless the iteration is the last one, one for every call made
    while it awaits the delay. Each goes to the room of the caller, and
    its message is the arguments of the call joined by single spaces. *)
Theorem console_forwarding engine req socket_id w fnName jid response :
  pre_loop req w = inr (fnName, jid) ->
  fst (api_execute engine req socket_id w) = Some response ->
  http_status response = 200 ->
  let N := default 1 (req_loop req) in
  let run := run_of engine req socket_id w fnName jid in
  let evs := new_events w (snd (api_execute engine req socket_id w)) in
  events_named (js "console") evs
  = flat_map (fun i => map (fun args =>
                         {| room := socket_id; event := js "console";
                            payload := v_obj [(js "message", v_str (join (js " ") args))] |})
                       (logs (run i) ++ if i <? N then delay_logs (run i) else []))
      (seqZ 1 N).
Proof.
  intros Hpre Hresp H200 N run evs.
  pose proof (responded_200 engine req socket_id w fnName jid response Hpre Hresp H200)
    as Hall.
  fold N run in Hall.
  pose proof (api_execute_completed engine req socket_id w fnName jid Hpre Hall) as Hexec.
  cbv zeta in Hexec. fold N run in Hexec.
  unfold evs. rewrite Hexec. cbn [snd]. rewrite new_events_app. clear Hexec evs Hresp.
  induction Hall as [|i l Hi _ IH]; [done|].
  cbn [flat_map]. rewrite events_named_app, (console_of_iteration _ _ _ _ Hi), IH. done.
Qed.

Lemma console_forwarding_witness :
  pre_loop (request code1 2) world_connected
    = inr (js "kirim", js "628999000111@s.whatsapp.net")
  /\ map payload
       (events_named (js "console")
          (new_events world_connected
             (snd (api_execute engine_logging (request code1 2) room0 world_connected))))
     = [v_obj [(js "message", v_str (js "iterasi selesai"))];
        v_obj [(js "message", v_str (js "nanti"))];
        v_obj [(js "message", v_str (js "iterasi selesai"))]].
Proof.
  assert (H : pre_loop (request code1 2) world_connected
              = inr (js "kirim", js "628999000111@s.whatsapp.net"))
    by (vm_compute; reflexivity).
  split; [exact H|].
  assert (Hr : fst (api_execute engine_logging (request code1 2) room0 world_connected)
               = Some {| http_status := 200;
                         body := v_obj [(js "success", v_bool true);
                                        (js "results",
                                         v_arr [success_outcome 1 7; success_outcome 2 7])] |})
    by (vm_compute; reflexivity).
  rewrite (console_forwarding engine_logging (request code1 2) room0 world_connected _ _ _
             H Hr eq_refl).
  reflexivity.
Defined.

(** X17. The loop count at its edges. With a loop count of zero or less
    an accepted request runs no iteration: it is answered 200 with an
    empty [results], emits nothing, and still constructs its [VM]. With no
    loop count in the body it enters exactly one iteration: it emits one
    progress event, which reads 1 of 1, and at most one result event; when
    it is answered 200 there is one result event, for iteration 1, and
    every entry of [results] is of iteration 1. *)
Theorem loop_count_edges engine req socket_id w fnName jid :
  pre_loop req w = inr (fnName, jid) ->
  let r := api_execute engine req socket_id w in
  let evs := new_events w (snd r) in
  (forall N, req_loop req = Some N -> N <= 0 ->
     fst r = Some {| http_status := 200;
                     body := v_obj [(js "success", v_bool true);
                                    (js "results", v_arr [])] |}
     /\ evs = []
     /\ vms (snd r) = S (vms w))
  /\ (req_loop req = None ->
      map (fun e => (room e, payload e)) (events_named (js "progress") evs)
      = [(socket_id, v_obj [(js "current", v_num 1); (js "total", v_num 1)])]
      /\ (length (events_named (js "result") evs) <= 1)%nat
      /\ (forall response, fst r = Some response -> http_status response = 200 ->
            map (fun e => (room e, field (js "loop") (payload e)))
                (events_named (js "result") evs)
            = [(socket_id, Some (v_num 1))]
            /\ results_of response <> []
            /\ Forall (fun o => field (js "loop") o = Some (v_num 1))
                 (results_of response))).
Proof.
  intros Hpre r evs.
  pose proof (api_execute_accepted engine req socket_id w fnName jid Hpre) as Hexec.
  cbv zeta in Hexec. unfold evs, r. rewrite Hexec. cbn [fst snd vms].
  rewrite new_events_app. split.
  - intros N HN Hle. rewrite HN. cbn [default]. rewrite seqZ_nil by done. done.
  - intros HN. rewrite HN. cbn [default].
    set (run := run_of engine req socket_id w fnName jid).
    change (seqZ 1 1) with [1]. cbn [entered].
    assert (Hone : fst match iteration_flow run 1 with
                       | proceeds => ([1], proceeds)
                       | aborted error => ([1], aborted error)
                       | suspended => ([1], suspended)
                       end = [1]) by (by destruct (iteration_flow run 1)).
    rewrite Hone. cbn [flat_map]. rewrite !app_nil_r.
    rewrite progress_of_iteration, result_of_iteration.
    split; [reflexivity|]. split.
    + pose proof (iteration_result_event_cases run socket_id 1) as H.
      destruct (iteration_flow run 1); [|rewrite H; cbn; lia..].
      destruct H as (e & -> & _). cbn. lia.
    + intros response Hr H200.
      destruct (iteration_flow run 1) as [|e|] eqn:Hflow;
        [|injection Hr as <-; discriminate H200 | discriminate Hr].
      cbn [snd loop_response] in Hr. injection Hr as <-.
      split; [by apply result_event_room|].
      change (results_of _) with (iteration_results run 1).
      split; [by apply iteration_results_nonempty|].
      unfold iteration_results.
      destruct (outcome (run 1)) as [result|err|];
        [destruct (result_summary result)|destruct (message_of err)|];
        repeat (apply Forall_cons_2; [reflexivity|]); apply Forall_nil_2.
Qed.

Lemma loop_count_edges_witness :
  pre_loop (request code1 0) world_connected
    = inr (js "kirim", js "628999000111@s.whatsapp.net")
  /\ fst (api_execute engine_ok (request code1 0) room0 world_connected)
     = Some {| http_status := 200;
               body := v_obj [(js "success", v_bool true); (js "results", v_arr [])] |}
  /\ new_events world_connected
       (snd (api_execute engine_ok (request code1 0) room0 world_connected)) = [].
Proof.
  assert (H : pre_loop (request code1 0) world_connected
              = inr (js "kirim", js "628999000111@s.whatsapp.net"))
    by (vm_compute; reflexivity).
  split; [exact H|].
  destruct (loop_count_edges engine_ok (request code1 0) room0 world_connected _ _ H)
    as [Hzero _].
  destruct (Hzero 0 eq_refl ltac:(lia)) as (Hr & He & _).
  split; [exact Hr | exact He].
Defined.

(** ** The loop when every run settles *)



(** ** The capability object: [react], [deleteMessage], and a missing handle *)

(** X18. [react] and [deleteMessage] pass their content to the transport
    and never read what it resolves to: they return [{ success: true }]
    without an id whenever the transport call returns, whatever it returns,
    and throw a fresh error with their own prefix and the message of the
    error caught when it throws. *)
Theorem react_and_delete_results handle c :
  (exists to messageId emoji, c = react to messageId emoji)
  \/ (exists to messageId, c = deleteMessage to messageId) ->
  exists to content,
    content_of c = Some (to, content)
    /\ error_prefix c <> []
    /\ match call_sendMessage handle to content with
       | returns _ => capability handle c = returns cap_done
       | throws err =>
           capability handle c = throws (new_Error (error_prefix c ++ message err))
       end.
Proof.
  intros [(to & messageId & emoji & ->)|(to & messageId & ->)];
    cbn [content_of error_prefix capability]; do 2 eexists;
    (split; [reflexivity|]); (split; [discriminate|]);
    unfold send_plain; by destruct (call_sendMessage _ _ _).
Qed.

Lemma react_and_delete_results_witness :
  ((exists to messageId emoji,
      react (js "628999000111@s.whatsapp.net") (js "3EB0") (js "ok") = react to messageId emoji)
   \/ (exists to messageId,
         react (js "628999000111@s.whatsapp.net") (js "3EB0") (js "ok")
         = deleteMessage to messageId))
  /\ capability (Some transport_silent)
       (react (js "628999000111@s.whatsapp.net") (js "3EB0") (js "ok"))
     = returns cap_done.
Proof.
  assert (H : (exists to messageId emoji,
                 react (js "628999000111@s.whatsapp.net") (js "3EB0") (js "ok")
                 = react to messageId emoji)
              \/ (exists to messageId,
                    react (js "628999000111@s.whatsapp.net") (js "3EB0") (js "ok")
                    = deleteMessage to messageId)).
  { left. by do 3 eexists. }
  split; [exact H|].
  destruct (react_and_delete_results (Some transport_silent) _ H)
    as (to & content & Hcontent & _ & Hres).
  injection Hcontent as <- <-. exact Hres.
Defined.

(** X19. With no transport handle (the session record was rebuilt by a
    listener), every method but [getUserStatus] throws a fresh error made
    of its prefix and the message of the [TypeError] for reading
    [sendMessage] of [undefined], and [getUserStatus] returns
    [{ status: 'unknown' }]; a send through a transport that resolves to
    [undefined] or [null] throws in the same way, for reading [key]. *)
Theorem capability_without_handle c :
  capability None c
  = match c with
    | getUserStatus _ => returns (cap_status unknown_status)
    | _ => throws (new_Error (error_prefix c
                              ++ js "Cannot read properties of undefined (reading 'sendMessage')"))
    end
  /\ (forall t to content n,
        send_family c = true ->
        content_of c = Some (to, content) ->
        transport_sendMessage t to content = returns (res_nullish n) ->
        capability (Some t) c
        = throws (new_Error (error_prefix c
                             ++ message (TypeError_reading (nullish_name n) "key")))).
Proof.
  split; [by destruct c|].
  intros t to content n Hc Hcontent Ht.
  destruct c; try discriminate Hc; cbn [content_of] in Hcontent;
    injection Hcontent as <- <-; cbn [capability error_prefix];
    rewrite ?or_empty_default;
    unfold send_with_id, call_sendMessage; by rewrite Ht.
Qed.

(** ** The pairing code *)

Lemma groups_of_4_concat s cur :
  concat (groups_of_4 s cur)
  = cur ++ List.filter (fun c => negb (is_line_terminator c)) s.
Proof.
  revert cur. induction s as [|c s IH]; intros cur; cbn [groups_of_4 List.filter].
  - destruct cur; cbn; by rewrite ?app_nil_r.
  - destruct (is_line_terminator c); cbn [negb].
    + destruct cur; cbn [concat]; by rewrite IH.
    + destruct (length cur =? 4)%nat; cbn [concat]; rewrite IH; [done|].
      by rewrite <- app_assoc.
Qed.

Lemma groups_of_4_lengths s cur :
  (length cur <= 4)%nat ->
  Forall (fun g => (1 <= length g <= 4)%nat) (groups_of_4 s cur).
Proof.
  revert cur. induction s as [|c s IH]; intros cur Hcur; cbn [groups_of_4].
  - destruct cur; [constructor|]. apply Forall_cons_2; [cbn in *; lia | constructor].
  - destruct (is_line_terminator c).
    + destruct cur; [apply IH; cbn; lia|].
      apply Forall_cons_2; [cbn in *; lia | apply IH; cbn; lia].
    + destruct (length cur =? 4)%nat eqn:E.
      * apply Nat.eqb_eq in E. apply Forall_cons_2; [lia | apply IH; cbn; lia].
      * apply Nat.eqb_neq in E. apply IH. rewrite length_app. cbn. lia.
Qed.

Lemma groups_of_4_nonempty s cur : cur <> [] -> groups_of_4 s cur <> [].
Proof.
  revert cur. induction s as [|c s IH]; intros cur Hcur; cbn [groups_of_4].
  - by destruct cur.
  - destruct (is_line_terminator c); [by destruct cur|].
    destruct (length cur =? 4)%nat; [done|]. apply IH. by destruct cur.
Qed.

Lemma groups_of_4_full s cur :
  Forall (fun c => is_line_terminator c = false) s ->
  (length cur <= 4)%nat ->
  Forall (fun g => length g = 4%nat) (removelast (groups_of_4 s cur)).
Proof.
  intros Hs. revert cur. induction Hs as [|c s Hc _ IH]; intros cur Hcur; cbn [groups_of_4].
  - destruct cur; constructor.
  - rewrite Hc. destruct (length cur =? 4)%nat eqn:E.
    + apply Nat.eqb_eq in E.
      pose proof (groups_of_4_nonempty s [c] ltac:(done)) as Hne.
      destruct (groups_of_4 s [c]) as [|g gs] eqn:Eg; [done|].
      change (removelast (cur :: g :: gs)) with (cur :: removelast (g :: gs)).
      apply Forall_cons_2; [done|].
      rewrite <- Eg. apply IH. cbn. lia.
    + apply Nat.eqb_neq in E. apply IH. rewrite length_app. cbn. lia.
Qed.

Lemma join_cons sep g g' gs : join sep (g :: g' :: gs) = g ++ sep ++ join sep (g' :: gs).
Proof. reflexivity. Qed.

Lemma strip_dashes_join gs :
  strip_dashes (join (js "-") gs) = concat (map strip_dashes gs).
Proof.
  induction gs as [|g gs IH]; [done|].
  destruct gs as [|g' gs]; [cbn [join map concat]; by rewrite app_nil_r|].
  rewrite join_cons. unfold strip_dashes at 1. rewrite !List.filter_app.
  fold (strip_dashes g). fold (strip_dashes (join (js "-") (g' :: gs))).
  rewrite IH. reflexivity.
Qed.

Lemma strip_dashes_id s :
  Forall (fun c => c <> 45%N) s -> strip_dashes s = s.
Proof.
  unfold strip_dashes. induction 1 as [|c s Hc _ IH]; [done|].
  cbn [List.filter]. apply N.eqb_neq in Hc. by rewrite Hc, IH.
Qed.

(** X20. The groups of a pairing code. [match(/.{1,4}/g)] cuts the code,
    its line terminators dropped, into groups of one to four code units.
    For a code without line terminator every group but the last has
    exactly four code units, and for a code that has no dash either,
    removing the dashes from the code sent to the client gives the code
    back. *)
Theorem pairing_code_groups code :
  let groups := groups_of_4 code [] in
  concat groups = List.filter (fun c => negb (is_line_terminator c)) code
  /\ Forall (fun g => (1 <= length g <= 4)%nat) groups
  /\ (Forall (fun c => is_line_terminator c = false) code ->
      Forall (fun g => length g = 4%nat) (removelast groups)
      /\ concat groups = code
      /\ (Forall (fun c => c <> 45%N) code ->
          strip_dashes (join (js "-") groups) = code)).
Proof.
  intros groups.
  assert (Hcat : concat groups = List.filter (fun c => negb (is_line_terminator c)) code)
    by apply groups_of_4_concat.
  split; [exact Hcat|].
  split; [apply groups_of_4_lengths; cbn; lia|].
  intros Hlt.
  assert (Hid : List.filter (fun c => negb (is_line_terminator c)) code = code).
  { clear -Hlt. induction Hlt as [|c s Hc _ IH]; [done|].
    cbn [List.filter]. by rewrite Hc, IH. }
  split; [apply groups_of_4_full; [done | cbn; lia]|].
  split; [by rewrite Hcat|].
  intros Hdash. rewrite strip_dashes_join.
  assert (Hmap : map strip_dashes groups = groups).
  { assert (Hall : Forall (Forall (fun c => c <> 45%N)) groups).
    { apply Forall_forall. intros g Hg. apply Forall_forall. intros c Hcg.
      rewrite Forall_forall in Hdash. apply Hdash.
      rewrite <- Hid, <- Hcat. apply list_elem_of_In, List.in_concat.
      exists g. split; by apply list_elem_of_In. }
    clear -Hall. induction Hall as [|g gs Hg _ IH]; [done|].
    cbn [map]. by rewrite strip_dashes_id, IH. }
  by rewrite Hmap, Hcat.
Qed.

Example pairing_code_groups_example :
  groups_of_4 (js "ABCD1234X") [] = [js "ABCD"; js "1234"; js "X"]
  /\ join (js "-") (groups_of_4 (js "ABCD1234X") []) = js "ABCD-1234-X".
Proof. split; reflexivity. Qed.

(** ** What the actions keep *)

Lemma handles_kept_refl w : handles_kept w w.
Proof. intros h s Hs. by exists s. Qed.

Lemma handles_kept_trans w1 w2 w3 :
  handles_kept w1 w2 -> handles_kept w2 w3 -> handles_kept w1 w3.
Proof.
  intros H12 H23 h s Hs.
  destruct (H12 h s Hs) as (s2 & Hs2 & Hp2 & Hr2 & Hl2).
  destruct (H23 h s2 Hs2) as (s3 & Hs3 & Hp3 & Hr3 & Hl3).
  exists s3. split; [done|]. split; [congruence|]. split; [congruence | auto].
Qed.

Lemma handles_kept_same w w' : sockets w' = sockets w -> handles_kept w w'.
Proof. intros E h s Hs. exists s. by rewrite E. Qed.

Lemma handles_kept_mark_closed h w : handles_kept w (mark_closed h w).
Proof.
  intros h' s' Hs'.
  destruct (mark_closed_lookup h h' w s' Hs') as (s'' & H1 & Hp & Hr & He & Hc).
  exists s''. split; [done|]. split; [done|]. split; [done|].
  unfold live. rewrite He, Hc. intros Hl. case_decide; [apply andb_false_r | done].
Qed.

Lemma handles_kept_mark_ended h w : handles_kept w (mark_ended h w).
Proof.
  intros h' s' Hs'.
  destruct (mark_ended_lookup h h' w s' Hs') as (s'' & H1 & Hp & Hr & Hc & He).
  exists s''. split; [done|]. split; [done|]. split; [done|].
  unfold live. rewrite He, Hc. intros Hl. case_decide; [done | done].
Qed.

Lemma connection_update_sockets h update w :
  sockets (on_connection_update h update w)
  = match update with upd_close _ => sockets (mark_closed h w) | _ => sockets w end.
Proof.
  unfold on_connection_update.
  destruct (sockets w !! h) as [s|] eqn:Hh.
  - destruct update as [[code|err]|reason|]; [destruct (groups_of_4 code [])| | |]; done.
  - destruct update; [done| |done]. unfold mark_closed. by rewrite Hh.
Qed.

Lemma handles_kept_step a w : handles_kept w (step a w).
Proof.
  destruct a as [env phone sid|engine req sid|end_fault phone|h update|n|sid args];
    cbn [step].
  - unfold api_pairing.
    destruct (_ || _)%bool; [apply handles_kept_refl|].
    destruct (already_connected _ w); [apply handles_kept_refl|].
    destruct (auth_fault env); [apply handles_kept_refl|].
    destruct (socket_fault env); [apply handles_kept_refl|].
    intros h s Hs. exists s. cbn [snd set_connections set_sockets sockets].
    split; [by apply lookup_app_l_Some | done].
  - apply handles_kept_same. apply api_execute_frame.
  - unfold api_disconnect. destruct (connections w !! phone) as [c|]; [|apply handles_kept_refl].
    destruct (sock c) as [h|]; [|apply handles_kept_refl].
    destruct end_fault; [apply handles_kept_refl|].
    cbn [snd]. eapply handles_kept_trans; [apply handles_kept_mark_ended|].
    by apply handles_kept_same.
  - destruct update as [code|reason|].
    + apply handles_kept_same. by rewrite connection_update_sockets.
    + eapply handles_kept_trans; [apply (handles_kept_mark_closed h)|].
      apply handles_kept_same. by rewrite connection_update_sockets.
    + apply handles_kept_same. by rewrite connection_update_sockets.
  - apply handles_kept_same. unfold on_cleanup_timer.
    destruct (timers w !! n); [|done]. cbn [set_timers connections].
    destruct (connections w !! _) as [c|]; [destruct (status c)|]; done.
  - by apply handles_kept_same.
Qed.


Lemma record_consistent_kept w w' k c :
  handles_kept w w' -> record_consistent w k c -> record_consistent w' k c.
Proof.
  unfold record_consistent. intros Hk. destruct (sock c) as [h|]; [|done].
  intros ((s & Hs & Hp & Hr) & Hrest). split; [|done].
  destruct (Hk h s Hs) as (s' & Hs' & Hp' & Hr' & _).
  exists s'. split; [done|]. split; congruence.
Qed.

Lemma record_consistent_with_status w k o st :
  (forall c, o = Some c -> record_consistent w k c) ->
  st <> connecting ->
  record_consistent w k (with_status o st).
Proof.
  intros Ho Hst. destruct o as [c|]; [|by split].
  specialize (Ho c eq_refl). unfold record_consistent in *. cbn [with_status sock].
  destruct (sock c) as [h|] eqn:Hs; cbn [saveCreds socketId createdAt status]; [done|].
  destruct Ho as [Hb _]. split; [|done]. rewrite Hb. reflexivity.
Qed.

Lemma records_consistent_step a w :
  (forall k c, connections w !! k = Some c -> record_consistent w k c) ->
  forall k c, connections (step a w) !! k = Some c -> record_consistent (step a w) k c.
Proof.
  intros Hinv k c.
  pose proof (handles_kept_step a w) as Hkept.
  destruct a as [env phone sid|engine req sid|end_fault phone|h update|n|sid args];
    cbn [step] in *.
  - revert Hkept. unfold api_pairing.
    destruct (_ || _)%bool; [intros _; apply Hinv|].
    destruct (already_connected _ w); [intros _; apply Hinv|].
    destruct (auth_fault env); [intros _; apply Hinv|].
    destruct (socket_fault env); [intros _; apply Hinv|].
    cbn [snd set_connections set_sockets connections sockets]. intros Hkept.
    rewrite lookup_insert. case_decide as Hk.
    + intros Hc. injection Hc as <-. subst k. unfold record_consistent. cbn.
      split; [|by split; [|eexists]].
      eexists. split; [apply lookup_timers_app_length | done].
    + intros Hc. eapply record_consistent_kept; [exact Hkept | by apply Hinv].
  - destruct (api_execute_frame engine req sid w) as (Ec & Es & _).
    rewrite Ec. intros Hc. eapply record_consistent_kept; [exact Hkept | by apply Hinv].
  - revert Hkept. unfold api_disconnect.
    destruct (connections w !! phone) as [c0|]; [|intros _; apply Hinv].
    destruct (sock c0) as [h|]; [|intros _; apply Hinv].
    destruct end_fault; [intros _; apply Hinv|].
    cbn [snd set_connections connections]. intros Hkept.
    destruct (mark_ended_frame h w) as (-> & _).
    rewrite lookup_delete. case_decide; [done|].
    intros Hc. eapply record_consistent_kept; [exact Hkept | by apply Hinv].
  - revert Hkept. unfold on_connection_update.
    destruct (sockets w !! h) as [s|] eqn:Hh; [|intros _; apply Hinv].
    destruct update as [code|reason|]; [| |intros _; apply Hinv].
    + intros Hkept.
      assert (Hc' : forall w',
                connections w' = <[for_phone s := with_status (connections w !! for_phone s)
                                                     connected]> (connections w) ->
                handles_kept w w' ->
                connections w' !! k = Some c -> record_consistent w' k c).
      { intros w' Ew' Hk'. rewrite Ew', lookup_insert. case_decide as Hk.
        - intros Hc. injection Hc as <-. subst k.
          eapply record_consistent_kept; [exact Hk'|].
          apply record_consistent_with_status; [|done]. intros c0 Hc0. by apply Hinv.
        - intros Hc. eapply record_consistent_kept; [exact Hk' | by apply Hinv]. }
      destruct code as [code|err]; [destruct (groups_of_4 code [])|];
        apply Hc'; done.
    + cbn [set_timers set_connections emit connections sockets]. intros Hkept.
      rewrite mark_closed_connections, lookup_insert. case_decide as Hk.
      * intros Hc. injection Hc as <-. subst k.
        eapply record_consistent_kept; [exact Hkept|].
        apply record_consistent_with_status; [|done]. intros c0 Hc0. by apply Hinv.
      * intros Hc. eapply record_consistent_kept; [exact Hkept | by apply Hinv].
  - revert Hkept. unfold on_cleanup_timer.
    destruct (timers w !! n) as [key|]; [|intros _; apply Hinv].
    cbn [set_timers connections].
    destruct (connections w !! key) as [c0|]; [destruct (status c0)|];
      cbn [set_connections set_timers connections]; intros Hkept;
      try (intros Hc; eapply record_consistent_kept; [exact Hkept | by apply Hinv]).
    rewrite lookup_delete. case_decide; [done|].
    intros Hc. eapply record_consistent_kept; [exact Hkept | by apply Hinv].
  - cbn [emit connections]. intros Hc.
    eapply record_consistent_kept; [exact Hkept | by apply Hinv].
Qed.

(** X22. In every reachable world the registry agrees with the transport
    handles: a record that holds a handle holds one that was made for the
    record's own key and for the room stored in the record, and has the
    auth folder of its key and a creation time; a record without handle
    has nothing but its status; and every [connecting] record holds a
    handle. *)
Theorem records_agree_with_handles w k c :
  reachable w ->
  connections w !! k = Some c ->
  match sock c with
  | Some h =>
      (exists s, sockets w !! h = Some s /\ for_phone s = k /\ for_room s = socketId c)
      /\ saveCreds c = Some k /\ is_Some (createdAt c)
  | None => c = bare (status c) /\ status c <> connecting
  end.
Proof.
  intros Hw. revert k c.
  change (forall k c, connections w !! k = Some c -> record_consistent w k c).
  induction Hw as [|a w _ IH].
  - intros k c H. cbn [init connections] in H. by rewrite lookup_empty in H.
  - by apply records_consistent_step.
Qed.

Lemma records_agree_with_handles_witness :
  reachable world_paired_twice
  /\ connections world_paired_twice !! phone0
     = Some {| sock := Some 1%nat; saveCreds := Some phone0; status := connecting;
               socketId := room0; createdAt := Some 1000 |}
  /\ (exists s, sockets world_paired_twice !! 1%nat = Some s
                /\ for_phone s = phone0 /\ for_room s = room0).
Proof.
  assert (Hw : reachable world_paired_twice) by apply reachable_run_actions, reachable_init.
  assert (Hc : connections world_paired_twice !! phone0
               = Some {| sock := Some 1%nat; saveCreds := Some phone0; status := connecting;
                         socketId := room0; createdAt := Some 1000 |}) by reflexivity.
  split; [exact Hw|]. split; [exact Hc|].
  destruct (records_agree_with_handles world_paired_twice phone0 _ Hw Hc) as [Hs _].
  exact Hs.
Defined.
